(** * e2ee-tools: the hybrid-encryption envelope protocol

    A shallow embedding of [OpenE2EE] (the orchestration class) and of
    [PGPService] (lib/pgp.ts), over an abstract OpenPGP library.

    - JavaScript strings are [string]; an optional field ([privateKey?]) is
      an [option]; the unchecked casts [this.publicKey as PGPPublicKey] hand
      the option on as it is, so the service methods take optional handles.
    - An [async] function is a [Promise]: a function of the state of the
      JavaScript run time (entropy and scheduling) that returns a rejection
      or a value, and the next state.
    - The OpenPGP library is an interface ([OpenPGP]); what the protocol
      relies on is collected in [OpenPGPContract].  The modules lib/models,
      lib/error and lib/encoding.utils are imported by the sources but are
      not part of them; see [Models] and [tryCatch]. *)

From Stdlib Require Import String Ascii List Arith Lia.
From Stdlib Require Import Strings.Byte.
From Stdlib Require Import Decimal DecimalString DecimalNat.
Import ListNotations.
Local Open Scope string_scope.
Local Open Scope list_scope.

Set Implicit Arguments.

(* ------------------------------------------------------------------ *)
(** ** Failures *)

(** The failure kinds of the error taxonomy.  [StateError] is the failure
    the data model asks of an identity that is not ready; no statement of
    the sources raises it. *)
Inductive ErrorKind : Type :=
| KeyGenerationError
| DerivationError
| KeyParseError
| AuthenticationError
| EncryptionError
| DecryptionError
| SignatureVerificationError
| EnvelopeFormatError
| StateError.

(** A thrown value: an error of some kind, possibly wrapped with the name
    of the operation in which it was caught. *)
Inductive Failure : Type :=
| Thrown (k : ErrorKind)
| Tagged (op : string) (cause : Failure).

Definition Result (A : Type) : Type := (Failure + A)%type.

(** The kind of the error at the root of a failure. *)
Fixpoint kind_of (f : Failure) : ErrorKind :=
  match f with
  | Thrown k => k
  | Tagged _ cause => kind_of cause
  end.

(** The name under which the failure was last caught, if any. *)
Definition tag_of (f : Failure) : option string :=
  match f with
  | Thrown _ => None
  | Tagged op _ => Some op
  end.

Definition is_state_error (f : Failure) : bool :=
  match kind_of f with
  | StateError => true
  | _ => false
  end.

(* ------------------------------------------------------------------ *)
(** ** The run time and promises *)

(** The JavaScript run time, as far as the code depends on it: [World] is
    its state (the entropy the library draws from, the order in which
    pending promises settle); [race w] is the index, among the promises of
    one [Promise.all] that reject, of the one that rejects first. *)
Class Runtime : Type := {
  World : Type;
  race : World -> nat
}.

Section Promises.
Context `{Runtime}.

Definition Promise (A : Type) : Type := World -> Result A * World.

Definition resolve {A} (a : A) : Promise A := fun w => (inr a, w).

(** [await] of a synchronous or deterministic step. *)
Definition settle {A} (r : Result A) : Promise A := fun w => (r, w).

(** [const a = await m; k a]. *)
Definition bind {A B} (m : Promise A) (k : A -> Promise B) : Promise B :=
  fun w =>
    match m w with
    | (inl e, w') => (inl e, w')
    | (inr a, w') => k a w'
    end.

(** Every promise of the array is started, in order. *)
Fixpoint start_all {A} (ps : list (Promise A)) (w : World)
  : list (Result A) * World :=
  match ps with
  | [] => ([], w)
  | p :: ps' =>
      let (r, w1) := p w in
      let (rs, w2) := start_all ps' w1 in
      (r :: rs, w2)
  end.

Fixpoint rejections {A} (rs : list (Result A)) : list Failure :=
  match rs with
  | [] => []
  | inl e :: rs' => e :: rejections rs'
  | inr _ :: rs' => rejections rs'
  end.

Fixpoint fulfilled {A} (rs : list (Result A)) : list A :=
  match rs with
  | [] => []
  | inl _ :: rs' => fulfilled rs'
  | inr a :: rs' => a :: fulfilled rs'
  end.

(** [Promise.all] rejects with the reason of the first promise that
    rejects, and otherwise fulfils with all the values. *)
Definition first_rejection (es : list Failure) (e0 : Failure) (w : World)
  : Failure := nth (race w) es e0.

Definition Promise_all {A} (ps : list (Promise A)) : Promise (list A) :=
  fun w =>
    let (rs, w') := start_all ps w in
    match rejections rs with
    | [] => (inr (fulfilled rs), w')
    | e :: es => (inl (first_rejection (e :: es) e w'), w')
    end.

(** [Promise.all([p1, p2])] on an array of two promises of different
    types. *)
Definition Promise_all2 {A B} (p1 : Promise A) (p2 : Promise B)
  : Promise (A * B) :=
  fun w =>
    let (r1, w1) := p1 w in
    let (r2, w2) := p2 w1 in
    match r1, r2 with
    | inr a, inr b => (inr (a, b), w2)
    | inl e, inr _ => (inl e, w2)
    | inr _, inl e => (inl e, w2)
    | inl e1, inl e2 => (inl (first_rejection [e1; e2] e1 w2), w2)
    end.

(** Modelled from the spec: [tryCatch] of lib/error, which is absent.
    [tryCatch name fn] is [fn] with every failure caught and tagged with
    the operation name [name]; a value passes through. *)
Definition tryCatch {A} (name : string) (fn : Promise A) : Promise A :=
  fun w =>
    match fn w with
    | (inl e, w') => (inl (Tagged name e), w')
    | (inr a, w') => (inr a, w')
    end.

(** The outcome of a deterministic step run under [tryCatch name]. *)
Definition tagged {A} (name : string) (r : Result A) : Result A :=
  match r with
  | inl e => inl (Tagged name e)
  | inr a => inr a
  end.

(** The failure was caught under one of the given operation names. *)
Definition tagged_by (names : list string) (e : Failure) : Prop :=
  exists op cause, e = Tagged op cause /\ In op names.

End Promises.

Declare Scope promise_scope.
Delimit Scope promise_scope with promise.
Notation "x <- m ;; k" := (bind m (fun x => k))
  (at level 61, m at next level, right associativity) : promise_scope.
Notation "' pat <- m ;; k" := (bind m (fun x => match x with pat => k end))
  (at level 61, pat pattern, m at next level, right associativity)
  : promise_scope.
Local Open Scope promise_scope.

(* ------------------------------------------------------------------ *)
(** ** The OpenPGP library *)

(** The functions of the [openpgp] package that lib/pgp.ts calls.  Key
    generation, session keys and encryption draw entropy, so they are
    promises over the world; parsing and decryption are deterministic.
    [openpgp.encrypt] and [openpgp.decrypt] are taken with the two sets of
    options the service passes: keys (always with [expectSigned: true] when
    decrypting) and passwords.  [toPublic] and [isDecrypted] are the
    library's methods of the same names on a private key.

    The service passes its data as a text literal
    ([createMessage ({text: data})]) and returns [decrypted.data].  The
    library does not keep a text as it is: it stores the literal with
    canonical line endings and renders it with native ones, so a carriage
    return before a line feed is lost, and it replaces what is not
    well-formed UTF-16.  [literalText text] is the text that comes back
    for [text]. *)
Class OpenPGP `{Runtime} : Type := {
  PGPPrivateKey : Type;
  PGPPublicKey : Type;
  Message : Type;
  literalText : string -> string;
  toPublic : PGPPrivateKey -> PGPPublicKey;
  isDecrypted : PGPPrivateKey -> bool;
  (* generateKey ({type, curve, userIDs, passphrase, format: "armored"}) *)
  openpgp_generateKey : string -> string -> Promise (string * string);
  (* generateSessionKey ({encryptionKeys}), the [data] of the result *)
  openpgp_generateSessionKey : option PGPPublicKey -> Promise (list byte);
  openpgp_readKey : string -> Result PGPPublicKey;
  openpgp_readPrivateKey : string -> Result PGPPrivateKey;
  openpgp_decryptKey : PGPPrivateKey -> string -> Result PGPPrivateKey;
  openpgp_createMessage : string -> Result Message;
  openpgp_readMessage : string -> Result Message;
  (* encrypt ({message, encryptionKeys, signingKeys}) *)
  openpgp_encrypt_keys :
    Message -> list (option PGPPublicKey) -> option PGPPrivateKey ->
    Promise string;
  (* encrypt ({message, passwords}) *)
  openpgp_encrypt_passwords : Message -> string -> Promise string;
  (* decrypt ({message, verificationKeys, decryptionKeys, expectSigned}) *)
  openpgp_decrypt_keys :
    Message -> list (option PGPPublicKey) -> option PGPPrivateKey ->
    Result string;
  (* decrypt ({message, passwords}) *)
  openpgp_decrypt_passwords : Message -> string -> Result string
}.

(** What the envelope protocol relies on from the library (the Crypto
    Provider contract).  A message encrypted for a set of recipients and
    signed opens, for a recipient that trusts the signer, to the text
    literal of what went in; it is refused with
    [SignatureVerificationError] by a recipient that does not trust the
    signer; a password-encrypted message opens under the same password, to
    the text literal of what went in; a key unlocked under one passphrase
    is refused
    with [AuthenticationError] under another; the keys of a generated pair
    belong together; an absent key handle is refused. *)
Class OpenPGPContract `{OpenPGP} : Prop := {
  generateKey_pair :
    forall passphrase userId w armoredPrivate armoredPublic w' locked sk pk,
      openpgp_generateKey passphrase userId w
        = (inr (armoredPrivate, armoredPublic), w') ->
      openpgp_readPrivateKey armoredPrivate = inr locked ->
      openpgp_decryptKey locked passphrase = inr sk ->
      openpgp_readKey armoredPublic = inr pk ->
      toPublic sk = pk;
  decryptKey_isDecrypted :
    forall locked passphrase sk,
      openpgp_decryptKey locked passphrase = inr sk -> isDecrypted sk = true;
  decryptKey_wrong_passphrase :
    forall locked q sk p,
      openpgp_decryptKey locked q = inr sk -> p <> q ->
      openpgp_decryptKey locked p = inl (Thrown AuthenticationError);
  keys_roundtrip :
    forall text message signer recipients w armored w' receiver trusted,
      openpgp_createMessage text = inr message ->
      isDecrypted signer = true ->
      openpgp_encrypt_keys message recipients (Some signer) w
        = (inr armored, w') ->
      isDecrypted receiver = true ->
      In (Some (toPublic receiver)) recipients ->
      In (toPublic signer) trusted ->
      exists received,
        openpgp_readMessage armored = inr received /\
        openpgp_decrypt_keys received (map Some trusted) (Some receiver)
          = inr (literalText text);
  keys_untrusted_signer :
    forall text message signer recipients w armored w' receiver trusted,
      openpgp_createMessage text = inr message ->
      isDecrypted signer = true ->
      openpgp_encrypt_keys message recipients (Some signer) w
        = (inr armored, w') ->
      isDecrypted receiver = true ->
      In (Some (toPublic receiver)) recipients ->
      ~ In (toPublic signer) trusted ->
      exists received,
        openpgp_readMessage armored = inr received /\
        openpgp_decrypt_keys received (map Some trusted) (Some receiver)
          = inl (Thrown SignatureVerificationError);
  passwords_roundtrip :
    forall text message password w armored w',
      openpgp_createMessage text = inr message ->
      openpgp_encrypt_passwords message password w = (inr armored, w') ->
      exists received,
        openpgp_readMessage armored = inr received /\
        openpgp_decrypt_passwords received password
          = inr (literalText text);
  encrypt_absent_recipient :
    forall message recipients signer w,
      In None recipients ->
      exists e, fst (openpgp_encrypt_keys message recipients signer w) = inl e;
  decrypt_absent_key :
    forall message trusted,
      exists e, openpgp_decrypt_keys message trusted None = inl e
}.

(** One more law of the library, on who can open a message: a private
    key whose public key is not among the recipients is refused with
    [DecryptionError], whatever the verification keys. *)
Class OpenPGPRecipients `{OpenPGP} : Prop := {
  keys_not_recipient :
    forall text message signer recipients w armored w' receiver trusted,
      openpgp_createMessage text = inr message ->
      isDecrypted signer = true ->
      openpgp_encrypt_keys message (map Some recipients) (Some signer) w
        = (inr armored, w') ->
      ~ In (toPublic receiver) recipients ->
      exists received,
        openpgp_readMessage armored = inr received /\
        openpgp_decrypt_keys received trusted (Some receiver)
          = inl (Thrown DecryptionError)
}.

(* ------------------------------------------------------------------ *)
(** ** lib/models and lib/encoding.utils *)

(** The item types, with the fields the class reads and writes. *)
Module MessageItemEncrypted.
Record t : Type := { key : string; encryptedMessage : string }.
End MessageItemEncrypted.

(** [ReceiveItemOut] is this type under another name. *)
Module MessageItem.
Record t : Type := { key : string; data : string }.
End MessageItem.

Module ShareItemOut.
Record t : Type := {
  senderPublicKey : string;
  receiverEncryptedMessage : string
}.
End ShareItemOut.

Module ShareNewItemOut.
Record t : Type := {
  senderPublicKey : string;
  senderEncryptedMessage : string;
  receiverEncryptedMessage : string
}.
End ShareNewItemOut.

(** The result of [readEncryptedMessage]. *)
Module EncryptedParts.
Record t : Type := { encryptedKey : string; encryptedData : string }.
End EncryptedParts.

(** The functions of lib/models and lib/encoding.utils that the sources
    import; their code is absent, so they are an interface here.
    [readEncryptedMessage] is synchronous and may throw. *)
Class Models : Type := {
  writeEncryptedMessage : string -> string -> string;
  readEncryptedMessage : string -> Result EncryptedParts.t;
  arrayToHexString : list byte -> string
}.

(** The contract of the envelope codec: reading what was written gives the
    two blobs back. *)
Class CodecContract `{Models} : Prop := {
  read_write :
    forall a b,
      readEncryptedMessage (writeEncryptedMessage a b)
        = inr {| EncryptedParts.encryptedKey := a;
                 EncryptedParts.encryptedData := b |}
}.

(** A session key is passed around as the hexadecimal string of its
    bytes; the text literal of such a string is the string itself (it
    holds digits and letters only). *)
Class SessionKeyContract `{OpenPGP} `{Models} : Prop := {
  hex_literalText :
    forall bytes,
      literalText (arrayToHexString bytes) = arrayToHexString bytes
}.

(* ------------------------------------------------------------------ *)
(** ** lib/pgp.ts: PGPService *)

Module PGPService.
Section Service.
Context `{OpenPGP} `{Models}.

Definition generateKeyPair (passphrase userId : string)
  : Promise (string * string) :=
  tryCatch "pgp.generateKeyPair" (openpgp_generateKey passphrase userId).

Definition generateEncryptionKey (publicKey : option PGPPublicKey)
  : Promise string :=
  tryCatch "pgp.generateEncryptionKey"
    (sessionKey <- openpgp_generateSessionKey publicKey ;;
     resolve (arrayToHexString sessionKey)).

Definition readPublicKey (publicKeyArmored : string)
  : Promise PGPPublicKey :=
  tryCatch "pgp.readPublicKey" (settle (openpgp_readKey publicKeyArmored)).

Definition readPrivateKey (privateKeyArmored : string)
  : Promise PGPPrivateKey :=
  tryCatch "pgp.readPrivateKey"
    (settle (openpgp_readPrivateKey privateKeyArmored)).

Definition decryptPrivateKey (privateKeyArmored passphrase : string)
  : Promise PGPPrivateKey :=
  tryCatch "pgp.decryptPrivateKey"
    (privateKey <- readPrivateKey privateKeyArmored ;;
     settle (openpgp_decryptKey privateKey passphrase)).

Definition encryptAsymmetric (privateKey : option PGPPrivateKey)
  (encryptionKeys : list (option PGPPublicKey)) (data : string)
  : Promise string :=
  tryCatch "pgp.encryptAsymmetric"
    (message <- settle (openpgp_createMessage data) ;;
     openpgp_encrypt_keys message encryptionKeys privateKey).

Definition decryptAsymmetric (privateKey : option PGPPrivateKey)
  (verificationKeys : list (option PGPPublicKey)) (data : string)
  : Promise string :=
  tryCatch "pgp.decryptAsymmetric"
    (message <- settle (openpgp_readMessage data) ;;
     settle (openpgp_decrypt_keys message verificationKeys privateKey)).

Definition encrypt (key data : string) : Promise string :=
  tryCatch "pgp.encrypt"
    (message <- settle (openpgp_createMessage data) ;;
     openpgp_encrypt_passwords message key).

Definition decrypt (key data : string) : Promise string :=
  tryCatch "pgp.decrypt"
    (message <- settle (openpgp_readMessage data) ;;
     settle (openpgp_decrypt_passwords message key)).


End Service.
End PGPService.

(* ------------------------------------------------------------------ *)
(** ** The class OpenE2EE *)

(** The object [exportMasterKeys] returns. *)
Module MasterKeys.
Record t : Type := { privateKey : string; publicKey : string }.
End MasterKeys.

Module OpenE2EE.
Section Class.
Context `{OpenPGP} `{Models}.

(** The fields of an instance.  [pgpService] holds no state and is left
    out; the two key handles are optional fields, absent until [build] or
    [load] assigns them. *)
Record t : Type := {
  passphrase : string;
  privateKey : option PGPPrivateKey;
  privateKeyEncryptedText : string;
  publicKey : option PGPPublicKey;
  publicKeyText : string;
  userId : string
}.

Definition constructor (userId passphrase : string) : t :=
  {| passphrase := passphrase;
     privateKey := None;
     privateKeyEncryptedText := "";
     publicKey := None;
     publicKeyText := "";
     userId := userId |}.

(** The four assignments that end [build] and [load]. *)
Definition assign_keys (this : t) (privateKeyObj : PGPPrivateKey)
  (publicKeyObj : PGPPublicKey) (privateKeyText publicKeyText : string)
  : t :=
  {| passphrase := this.(passphrase);
     privateKey := Some privateKeyObj;
     privateKeyEncryptedText := privateKeyText;
     publicKey := Some publicKeyObj;
     publicKeyText := publicKeyText;
     userId := this.(userId) |}.

(** A method that assigns to fields returns, next to its outcome, the
    state of [this] when it settles; the promise fulfils with [this]
    itself, so the value is [tt]. *)
Definition build (this : t) (w : World) : Result unit * t * World :=
  match
    ('(privateKey, publicKey) <-
       PGPService.generateKeyPair this.(passphrase) this.(userId) ;;
     keysObj <-
       Promise_all2
         (PGPService.decryptPrivateKey privateKey this.(passphrase))
         (PGPService.readPublicKey publicKey) ;;
     resolve (keysObj, privateKey, publicKey)) w
  with
  | (inl e, w') => (inl e, this, w')
  | (inr (keysObj, privateKey, publicKey), w') =>
      (inr tt,
       assign_keys this (fst keysObj) (snd keysObj) privateKey publicKey,
       w')
  end.

Definition load (encryptedPrivateKey publicKey : string) (this : t)
  (w : World) : Result unit * t * World :=
  match
    Promise_all2
      (PGPService.decryptPrivateKey encryptedPrivateKey this.(passphrase))
      (PGPService.readPublicKey publicKey) w
  with
  | (inl e, w') => (inl e, this, w')
  | (inr (privateKeyObj, publicKeyObj), w') =>
      (inr tt,
       assign_keys this privateKeyObj publicKeyObj
         encryptedPrivateKey publicKey,
       w')
  end.

Definition exportMasterKeys (this : t) : Promise MasterKeys.t :=
  resolve {| MasterKeys.privateKey := this.(privateKeyEncryptedText);
             MasterKeys.publicKey := this.(publicKeyText) |}.

Definition encrypt (this : t) (data : string)
  : Promise MessageItemEncrypted.t :=
  key <- PGPService.generateEncryptionKey this.(publicKey) ;;
  '(encryptedKey, encryptedData) <-
    Promise_all2
      (PGPService.encryptAsymmetric
         this.(privateKey) [this.(publicKey)] key)
      (PGPService.encrypt key data) ;;
  resolve
    {| MessageItemEncrypted.key := key;
       MessageItemEncrypted.encryptedMessage :=
         writeEncryptedMessage encryptedKey encryptedData |}.

(** [externalEncryptionKeys] defaults to the empty array. *)
Definition decrypt (this : t) (encryptedMessage : string)
  (externalEncryptionKeys : list string) : Promise MessageItem.t :=
  parts <- settle (readEncryptedMessage encryptedMessage) ;;
  externalEncryptionKeysObj <-
    Promise_all (map PGPService.readPublicKey externalEncryptionKeys) ;;
  key <-
    PGPService.decryptAsymmetric
      this.(privateKey)
      (this.(publicKey) :: map Some externalEncryptionKeysObj)
      parts.(EncryptedParts.encryptedKey) ;;
  data <- PGPService.decrypt key parts.(EncryptedParts.encryptedData) ;;
  resolve {| MessageItem.key := key; MessageItem.data := data |}.

Definition share (this : t) (receiverPublicKey encryptedMessage : string)
  : Promise ShareItemOut.t :=
  parts <- settle (readEncryptedMessage encryptedMessage) ;;
  receiverPublicKeyObj <- PGPService.readPublicKey receiverPublicKey ;;
  sharedKey <-
    PGPService.decryptAsymmetric
      this.(privateKey) [this.(publicKey)]
      parts.(EncryptedParts.encryptedKey) ;;
  receiverEncryptedKey <-
    PGPService.encryptAsymmetric
      this.(privateKey) [this.(publicKey); Some receiverPublicKeyObj]
      sharedKey ;;
  resolve
    {| ShareItemOut.senderPublicKey := this.(publicKeyText);
       ShareItemOut.receiverEncryptedMessage :=
         writeEncryptedMessage receiverEncryptedKey
           parts.(EncryptedParts.encryptedData) |}.

(** The receiver's envelope is packed inside the object literal that is
    returned; a failure of [readEncryptedMessage] there rejects the
    promise. *)
Definition shareNew (this : t) (receiverPublicKey data : string)
  : Promise ShareNewItemOut.t :=
  receiverPublicKeyObj <- PGPService.readPublicKey receiverPublicKey ;;
  item <- encrypt this data ;;
  receiverEncryptedKey <-
    PGPService.encryptAsymmetric
      this.(privateKey) [Some receiverPublicKeyObj]
      item.(MessageItemEncrypted.key) ;;
  parts <-
    settle
      (readEncryptedMessage item.(MessageItemEncrypted.encryptedMessage)) ;;
  resolve
    {| ShareNewItemOut.senderPublicKey := this.(publicKeyText);
       ShareNewItemOut.senderEncryptedMessage :=
         item.(MessageItemEncrypted.encryptedMessage);
       ShareNewItemOut.receiverEncryptedMessage :=
         writeEncryptedMessage receiverEncryptedKey
           parts.(EncryptedParts.encryptedData) |}.

Definition receive (this : t) (senderPublicKey encryptedMessage : string)
  : Promise MessageItem.t :=
  decrypt this encryptedMessage [senderPublicKey].

End Class.
End OpenE2EE.

(* ------------------------------------------------------------------ *)
(** ** A length-prefixed envelope codec *)

Module EnvelopeCodec.

Definition string_of_nat (n : nat) : string :=
  NilEmpty.string_of_uint (Nat.to_uint n).

Definition nat_of_string (s : string) : option nat :=
  option_map Nat.of_uint (NilEmpty.uint_of_string s).

(** The text before the first colon, and the text after it. *)
Fixpoint split_colon (s : string) : option (string * string) :=
  match s with
  | EmptyString => None
  | String c s' =>
      if Ascii.eqb c ":" then Some (EmptyString, s')
      else match split_colon s' with
           | Some (a, b) => Some (String c a, b)
           | None => None
           end
  end.

Fixpoint take (n : nat) (s : string) : string :=
  match n, s with
  | S n', String c s' => String c (take n' s')
  | _, _ => EmptyString
  end.

Fixpoint drop (n : nat) (s : string) : string :=
  match n, s with
  | S n', String _ s' => drop n' s'
  | _, _ => s
  end.

(** A number in decimal, a colon, the rest. *)
Definition put_nat (n : nat) (rest : string) : string :=
  (string_of_nat n ++ ":" ++ rest)%string.

Definition get_nat (s : string) : option (nat * string) :=
  match split_colon s with
  | Some (digits, rest) =>
      match nat_of_string digits with
      | Some n => Some (n, rest)
      | None => None
      end
  | None => None
  end.

(** A blob, prefixed with its length. *)
Definition put_field (a rest : string) : string :=
  put_nat (String.length a) (a ++ rest)%string.

Definition get_field (s : string) : option (string * string) :=
  match get_nat s with
  | Some (n, rest) =>
      if Nat.leb n (String.length rest) then Some (take n rest, drop n rest)
      else None
  | None => None
  end.

(** Modelled from the spec: [writeEncryptedMessage] of lib/models, which
    is absent.  The spec fixes no wire format and asks for a packing that
    is immune to the content of the blobs, naming length-prefixing: the
    envelope is the length of the wrapped key in decimal, a colon, the
    wrapped key, the encrypted data. *)
Definition writeEncryptedMessage (encryptedKey encryptedData : string)
  : string :=
  put_field encryptedKey encryptedData.

(** Modelled from the spec: [readEncryptedMessage] of lib/models, which
    is absent.  It undoes [writeEncryptedMessage]; a string that is not
    an envelope is an [EnvelopeFormatError]. *)
Definition readEncryptedMessage (encryptedMessage : string)
  : Result EncryptedParts.t :=
  match get_field encryptedMessage with
  | Some (a, b) =>
      inr {| EncryptedParts.encryptedKey := a;
             EncryptedParts.encryptedData := b |}
  | None => inl (Thrown EnvelopeFormatError)
  end.

End EnvelopeCodec.

(* ------------------------------------------------------------------ *)
(** ** A symbolic OpenPGP library

    An instance of the interfaces above on which the operations can be
    run: keys are numbers, a world is the number of the next key, the
    armour of a key or of a message spells out its parts, and a cipher
    text is opened by comparing keys and passwords.  It meets
    [OpenPGPContract] (shown with the theorems). *)

Module Symbolic.
Import EnvelopeCodec.

(** A private key: its number and, while it is locked, the passphrase
    that protects it. *)
Definition PrivateKey : Type := (nat * option string)%type.

Inductive SymMessage : Type :=
| Literal (text : string)
| SignedFor (signer : nat) (recipients : list nat) (text : string)
| LockedWith (password : string) (text : string).

(** Line endings as the library renders them: a carriage return that
    comes before a line feed is dropped. *)
Fixpoint nativeEOL (s : string) : string :=
  match s with
  | EmptyString => EmptyString
  | String c s' =>
      match s' with
      | String c' _ =>
          if (Ascii.eqb c "013" && Ascii.eqb c' "010")%bool
          then nativeEOL s'
          else String c (nativeEOL s')
      | EmptyString => String c EmptyString
      end
  end.

(** The string holds no carriage return. *)
Fixpoint no_CR (s : string) : Prop :=
  match s with
  | EmptyString => True
  | String c s' => c <> "013"%char /\ no_CR s'
  end.

Definition armor_public (k : nat) : string :=
  String "P" (string_of_nat k).

Definition armor_private (k : nat) (passphrase : string) : string :=
  String "S" (put_nat k passphrase).

Fixpoint put_nats (ks : list nat) (rest : string) : string :=
  match ks with
  | [] => rest
  | k :: ks' => put_nat k (put_nats ks' rest)
  end.

Fixpoint get_nats (n : nat) (s : string) : option (list nat * string) :=
  match n with
  | O => Some ([], s)
  | S n' =>
      match get_nat s with
      | Some (k, rest) =>
          match get_nats n' rest with
          | Some (ks, rest') => Some (k :: ks, rest')
          | None => None
          end
      | None => None
      end
  end.

Definition armor_message (m : SymMessage) : string :=
  match m with
  | Literal text => String "L" text
  | SignedFor signer recipients text =>
      String "A"
        (put_nat signer
           (put_nat (List.length recipients) (put_nats recipients text)))
  | LockedWith password text => String "Y" (put_field password text)
  end.

Definition readKey (armored : string) : Result nat :=
  match armored with
  | String "P" digits =>
      match nat_of_string digits with
      | Some k => inr k
      | None => inl (Thrown KeyParseError)
      end
  | _ => inl (Thrown KeyParseError)
  end.

Definition readPrivateKey (armored : string) : Result PrivateKey :=
  match armored with
  | String "S" rest =>
      match get_nat rest with
      | Some (k, passphrase) => inr (k, Some passphrase)
      | None => inl (Thrown KeyParseError)
      end
  | _ => inl (Thrown KeyParseError)
  end.

Definition decryptKey (privateKey : PrivateKey) (passphrase : string)
  : Result PrivateKey :=
  match privateKey with
  | (k, Some protection) =>
      if String.eqb passphrase protection then inr (k, None)
      else inl (Thrown AuthenticationError)
  | (_, None) => inl (Thrown AuthenticationError)
  end.

Definition readMessage (armored : string) : Result SymMessage :=
  match armored with
  | String "A" rest =>
      match get_nat rest with
      | Some (signer, rest1) =>
          match get_nat rest1 with
          | Some (n, rest2) =>
              match get_nats n rest2 with
              | Some (recipients, text) =>
                  inr (SignedFor signer recipients text)
              | None => inl (Thrown DecryptionError)
              end
          | None => inl (Thrown DecryptionError)
          end
      | None => inl (Thrown DecryptionError)
      end
  | String "Y" rest =>
      match get_field rest with
      | Some (password, text) => inr (LockedWith password text)
      | None => inl (Thrown DecryptionError)
      end
  | _ => inl (Thrown DecryptionError)
  end.

(** The keys of an array, when none of them is absent. *)
Fixpoint present (ks : list (option nat)) : option (list nat) :=
  match ks with
  | [] => Some []
  | Some k :: ks' => option_map (cons k) (present ks')
  | None :: _ => None
  end.

Definition trusts (verificationKeys : list (option nat)) (signer : nat)
  : bool :=
  existsb (fun k => match k with
                    | Some k' => Nat.eqb k' signer
                    | None => false
                    end) verificationKeys.

Definition encrypt_keys (message : SymMessage)
  (encryptionKeys : list (option nat)) (signingKeys : option PrivateKey)
  (w : nat) : Result string * nat :=
  match message, signingKeys, present encryptionKeys with
  | Literal text, Some (signer, None), Some recipients =>
      (inr (armor_message (SignedFor signer recipients text)), S w)
  | _, _, _ => (inl (Thrown EncryptionError), w)
  end.

Definition decrypt_keys (message : SymMessage)
  (verificationKeys : list (option nat)) (decryptionKeys : option PrivateKey)
  : Result string :=
  match message, decryptionKeys with
  | SignedFor signer recipients text, Some (k, None) =>
      if existsb (Nat.eqb k) recipients then
        if trusts verificationKeys signer then inr text
        else inl (Thrown SignatureVerificationError)
      else inl (Thrown DecryptionError)
  | _, _ => inl (Thrown DecryptionError)
  end.

Definition encrypt_passwords (message : SymMessage) (password : string)
  (w : nat) : Result string * nat :=
  match message with
  | Literal text => (inr (armor_message (LockedWith password text)), S w)
  | _ => (inl (Thrown EncryptionError), w)
  end.

Definition decrypt_passwords (message : SymMessage) (password : string)
  : Result string :=
  match message with
  | LockedWith protection text =>
      if String.eqb password protection then inr text
      else inl (Thrown DecryptionError)
  | _ => inl (Thrown DecryptionError)
  end.

Definition generateKey (passphrase userId : string) (w : nat)
  : Result (string * string) * nat :=
  (inr (armor_private w passphrase, armor_public w), S w).

Definition generateSessionKey (publicKey : option nat) (w : nat)
  : Result (list byte) * nat :=
  (inr match Byte.of_nat (w mod 256) with
       | Some b => [b]
       | None => []
       end, S w).

Definition hex_digit (n : nat) : ascii :=
  nth n (list_ascii_of_string "0123456789abcdef") "0"%char.

Definition hex_of_byte (b : byte) : string :=
  let n := Byte.to_nat b in
  String (hex_digit (n / 16)) (String (hex_digit (n mod 16)) EmptyString).

Definition hex (bytes : list byte) : string :=
  String.concat EmptyString (map hex_of_byte bytes).

#[export] Instance runtime : Runtime :=
  {| World := nat; race := fun w => w |}.

#[export] Instance pgp : OpenPGP :=
  {| PGPPrivateKey := PrivateKey;
     PGPPublicKey := nat;
     Message := SymMessage;
     literalText := nativeEOL;
     toPublic := fst;
     isDecrypted := fun sk => match snd sk with
                              | None => true
                              | Some _ => false
                              end;
     openpgp_generateKey := generateKey;
     openpgp_generateSessionKey := generateSessionKey;
     openpgp_readKey := readKey;
     openpgp_readPrivateKey := readPrivateKey;
     openpgp_decryptKey := decryptKey;
     openpgp_createMessage := fun text => inr (Literal (nativeEOL text));
     openpgp_readMessage := readMessage;
     openpgp_encrypt_keys := encrypt_keys;
     openpgp_encrypt_passwords := encrypt_passwords;
     openpgp_decrypt_keys := decrypt_keys;
     openpgp_decrypt_passwords := decrypt_passwords |}.

#[export] Instance models : Models :=
  Build_Models
    EnvelopeCodec.writeEncryptedMessage
    EnvelopeCodec.readEncryptedMessage
    hex.

(** The identity [new OpenE2EE(userId, passphrase)] after [build] has run
    in world [w]. *)
Definition built_identity (userId passphrase : string) (w : nat)
  : OpenE2EE.t :=
  snd (fst (OpenE2EE.build (OpenE2EE.constructor userId passphrase) w)).

(** The identity [new OpenE2EE(userId, passphrase)] after [load] of the
    two armoured keys has run in world [w]. *)
Definition loaded_identity (userId passphrase : string)
  (encryptedPrivateKey publicKey : string) (w : nat) : OpenE2EE.t :=
  snd (fst (OpenE2EE.load encryptedPrivateKey publicKey
              (OpenE2EE.constructor userId passphrase) w)).

Definition alice : OpenE2EE.t := built_identity "alice" "correct horse" 0.
Definition bob : OpenE2EE.t := built_identity "bob" "battery staple" 1.

(** An identity loaded with the private key of [alice] and the public key
    of [bob]. *)
Definition mallory : OpenE2EE.t :=
  loaded_identity "mallory" "correct horse"
    alice.(OpenE2EE.privateKeyEncryptedText) bob.(OpenE2EE.publicKeyText) 2.

(** An identity on which neither [build] nor [load] has run. *)
Definition carol : OpenE2EE.t := OpenE2EE.constructor "carol" "hunter2".

(** A third identity with a key pair of its own. *)
Definition erin : OpenE2EE.t := built_identity "erin" "tr0ub4dor" 2.

(** An identity loaded with the private key of [bob] and the public key
    of [erin]. *)
Definition bob2 : OpenE2EE.t :=
  loaded_identity "bob" "battery staple"
    bob.(OpenE2EE.privateKeyEncryptedText) erin.(OpenE2EE.publicKeyText) 3.

(** Two lines, ended the way of DOS: [a], carriage return, line feed,
    [b]; and the same two lines as the library gives them back. *)
Definition two_lines : string :=
  String "a" (String "013" (String "010" (String "b" EmptyString))).

Definition two_lines_read : string :=
  String "a" (String "010" (String "b" EmptyString)).

(** An envelope made outside the class, for [alice] and signed with her
    key: its session key is a carriage return and a line feed. *)
Definition dos_line_end : string := String "013" (String "010" EmptyString).

Definition unix_line_end : string := String "010" EmptyString.

Definition foreign_envelope : string :=
  "9:A0:1:0:" ++ dos_line_end ++ "Y2:" ++ dos_line_end ++ "hello".

End Symbolic.

(* ------------------------------------------------------------------ *)
(** ** Readiness of an identity *)

Section Readiness.
Context `{OpenPGP} `{Models}.

(** The states of an identity on which neither [build] nor [load] has
    completed: the state the constructor leaves, and the states left by
    calls of [build] and [load] that failed. *)
Inductive uninitialised : OpenE2EE.t -> Prop :=
| uninitialised_new (userId passphrase : string) :
    uninitialised (OpenE2EE.constructor userId passphrase)
| uninitialised_build (this this' : OpenE2EE.t) (w w' : World)
    (e : Failure) :
    uninitialised this ->
    OpenE2EE.build this w = (inl e, this', w') ->
    uninitialised this'
| uninitialised_load (this this' : OpenE2EE.t)
    (encryptedPrivateKey publicKey : string) (w w' : World) (e : Failure) :
    uninitialised this ->
    OpenE2EE.load encryptedPrivateKey publicKey this w = (inl e, this', w') ->
    uninitialised this'.

(** The key handles are absent. *)
Definition unready (this : OpenE2EE.t) : Prop :=
  this.(OpenE2EE.privateKey) = None /\ this.(OpenE2EE.publicKey) = None.

(** The handles an identity holds are the two halves of one key pair. *)
Definition key_pair (this : OpenE2EE.t) : Prop :=
  forall sk pk,
    this.(OpenE2EE.privateKey) = Some sk ->
    this.(OpenE2EE.publicKey) = Some pk ->
    toPublic sk = pk.

(** [this] is the state of an identity on which [build] has completed. *)
Definition built (this : OpenE2EE.t) : Prop :=
  exists this0 w0 w1, OpenE2EE.build this0 w0 = (inr tt, this, w1).

(** [this] is the state of an identity on which [load] has completed. *)
Definition loaded (this : OpenE2EE.t) : Prop :=
  exists encryptedPrivateKey publicKey this0 w0 w1,
    OpenE2EE.load encryptedPrivateKey publicKey this0 w0 = (inr tt, this, w1).

(** A ready identity: it holds an unlocked private key and the public key
    of the same pair, and [publicKeyText] is the armour of that public
    key. *)
Definition ready (this : OpenE2EE.t) : Prop :=
  exists sk pk,
    this.(OpenE2EE.privateKey) = Some sk /\
    this.(OpenE2EE.publicKey) = Some pk /\
    isDecrypted sk = true /\
    toPublic sk = pk /\
    openpgp_readKey this.(OpenE2EE.publicKeyText) = inr pk.

End Readiness.

(* ================================================================== *)
(** * Facts *)

(** ** Promises *)

Section PromiseFacts.
Context `{Runtime}.

Lemma bind_inr {A B} (m : Promise A) (k : A -> Promise B) w b w' :
  bind m k w = (inr b, w') ->
  exists a w1, m w = (inr a, w1) /\ k a w1 = (inr b, w').
Proof.
  unfold bind. destruct (m w) as [[e|a] w1]; [discriminate|].
  intros Hk. now exists a, w1.
Qed.

Lemma bind_inl {A B} (m : Promise A) (k : A -> Promise B) w e w' :
  bind m k w = (inl e, w') ->
  m w = (inl e, w') \/
  exists a w1, m w = (inr a, w1) /\ k a w1 = (inl e, w').
Proof.
  unfold bind. destruct (m w) as [[e1|a] w1]; intros Hk.
  - left. now injection Hk as -> ->.
  - right. now exists a, w1.
Qed.

Lemma bind_step {A B} (m : Promise A) (k : A -> Promise B) w a w1 :
  m w = (inr a, w1) -> bind m k w = k a w1.
Proof. unfold bind. now intros ->. Qed.

Lemma bind_fail {A B} (m : Promise A) (k : A -> Promise B) w e w1 :
  m w = (inl e, w1) -> bind m k w = (inl e, w1).
Proof. unfold bind. now intros ->. Qed.

Lemma tryCatch_inr {A} name (fn : Promise A) w a w' :
  tryCatch name fn w = (inr a, w') <-> fn w = (inr a, w').
Proof.
  unfold tryCatch. destruct (fn w) as [[e|a1] w1]; split; intros E;
    try discriminate; exact E.
Qed.

Lemma tryCatch_inl {A} name (fn : Promise A) w e w' :
  tryCatch name fn w = (inl e, w') <->
  exists cause, e = Tagged name cause /\ fn w = (inl cause, w').
Proof.
  unfold tryCatch. destruct (fn w) as [[e1|a1] w1]; split.
  - intros E. injection E as <- <-. now exists e1.
  - intros [c [-> E]]. now injection E as -> ->.
  - discriminate.
  - intros [c [_ E]]. discriminate.
Qed.

Lemma Promise_all2_inr {A B} (p1 : Promise A) (p2 : Promise B) w a b w' :
  Promise_all2 p1 p2 w = (inr (a, b), w') <->
  exists w1, p1 w = (inr a, w1) /\ p2 w1 = (inr b, w').
Proof.
  unfold Promise_all2. split.
  - destruct (p1 w) as [[e1|a1] w1]; destruct (p2 w1) as [[e2|b2] w2] eqn:E2;
      try discriminate.
    intros E. injection E as <- <- <-. now exists w1.
  - intros [w1 [-> ->]]. reflexivity.
Qed.

Lemma Promise_all2_inl {A B} (p1 : Promise A) (p2 : Promise B) w e w' :
  Promise_all2 p1 p2 w = (inl e, w') ->
  exists r1 w1 r2,
    p1 w = (r1, w1) /\ p2 w1 = (r2, w') /\ (r1 = inl e \/ r2 = inl e).
Proof.
  unfold Promise_all2, first_rejection.
  destruct (p1 w) as [r1 w1]. destruct (p2 w1) as [r2 w2] eqn:E2.
  intros E. exists r1, w1, r2.
  destruct r1 as [e1|a1]; destruct r2 as [e2|b2]; try discriminate;
    injection E as <- <-; repeat split; auto.
  destruct (race w2) as [|[|[|n]]]; simpl; auto.
Qed.

Lemma Promise_all2_left {A B} (p1 : Promise A) (p2 : Promise B) w e w1 :
  p1 w = (inl e, w1) ->
  exists e' w', Promise_all2 p1 p2 w = (inl e', w').
Proof.
  unfold Promise_all2. intros ->.
  destruct (p2 w1) as [[e2|b] w2]; eauto.
Qed.

Lemma Promise_all_nil {A} w :
  Promise_all (@nil (Promise A)) w = (inr [], w).
Proof. reflexivity. Qed.

Lemma Promise_all_one {A} (p : Promise A) w a w' :
  p w = (inr a, w') -> Promise_all [p] w = (inr [a], w').
Proof. unfold Promise_all. simpl. now intros ->. Qed.

Lemma start_all_rejection {A} (ps : list (Promise A)) w rs w' e :
  start_all ps w = (rs, w') -> In e (rejections rs) ->
  exists p w1 w2, In p ps /\ p w1 = (inl e, w2).
Proof.
  revert w rs. induction ps as [|p ps IH]; simpl; intros w rs E Hin.
  - injection E as <- _. contradiction.
  - destruct (p w) as [r w1] eqn:Ep.
    destruct (start_all ps w1) as [rs' w2] eqn:Es.
    injection E as <- <-.
    destruct r as [e1|a]; simpl in Hin.
    + destruct Hin as [->|Hin].
      * exists p, w, w1. auto.
      * destruct (IH _ _ Es Hin) as [q [v1 [v2 [Hq Eq]]]].
        exists q, v1, v2. auto.
    + destruct (IH _ _ Es Hin) as [q [v1 [v2 [Hq Eq]]]].
      exists q, v1, v2. auto.
Qed.

(** A rejection of [Promise.all] is the rejection of one of its
    promises. *)
Lemma Promise_all_inl {A} (ps : list (Promise A)) w e w' :
  Promise_all ps w = (inl e, w') ->
  exists p w1 w2, In p ps /\ p w1 = (inl e, w2).
Proof.
  unfold Promise_all, first_rejection.
  destruct (start_all ps w) as [rs w1] eqn:Es.
  destruct (rejections rs) as [|e0 es] eqn:Er; [discriminate|].
  intros E. injection E as <- _.
  eapply start_all_rejection; [exact Es|]. rewrite Er.
  change (In (nth (race w1) (e0 :: es) e0) (e0 :: es)).
  destruct (nth_in_or_default (race w1) (e0 :: es) e0) as [Hin|Heq];
    [exact Hin | rewrite Heq; now left].
Qed.

End PromiseFacts.

(** ** The service operations, step by step *)

Section ServiceFacts.
Context `{OpenPGP} `{Models}.

Lemma readPublicKey_run armored w :
  PGPService.readPublicKey armored w
  = (tagged "pgp.readPublicKey" (openpgp_readKey armored), w).
Proof.
  unfold PGPService.readPublicKey, tryCatch, settle.
  now destruct (openpgp_readKey armored).
Qed.

Lemma readPrivateKey_run armored w :
  PGPService.readPrivateKey armored w
  = (tagged "pgp.readPrivateKey" (openpgp_readPrivateKey armored), w).
Proof.
  unfold PGPService.readPrivateKey, tryCatch, settle.
  now destruct (openpgp_readPrivateKey armored).
Qed.

Lemma decryptPrivateKey_run armored passphrase w :
  PGPService.decryptPrivateKey armored passphrase w
  = (tagged "pgp.decryptPrivateKey"
       match tagged "pgp.readPrivateKey" (openpgp_readPrivateKey armored) with
       | inl e => inl e
       | inr locked => openpgp_decryptKey locked passphrase
       end, w).
Proof.
  unfold PGPService.decryptPrivateKey, tryCatch, bind, settle.
  rewrite readPrivateKey_run.
  destruct (openpgp_readPrivateKey armored) as [e|locked]; simpl;
    [reflexivity|].
  now destruct (openpgp_decryptKey locked passphrase).
Qed.

Lemma decryptAsymmetric_run privateKey verificationKeys armored w :
  PGPService.decryptAsymmetric privateKey verificationKeys armored w
  = (tagged "pgp.decryptAsymmetric"
       match openpgp_readMessage armored with
       | inl e => inl e
       | inr message =>
           openpgp_decrypt_keys message verificationKeys privateKey
       end, w).
Proof.
  unfold PGPService.decryptAsymmetric, tryCatch, bind, settle.
  destruct (openpgp_readMessage armored) as [e|message]; simpl;
    [reflexivity|].
  now destruct (openpgp_decrypt_keys message verificationKeys privateKey).
Qed.

Lemma decrypt_run key armored w :
  PGPService.decrypt key armored w
  = (tagged "pgp.decrypt"
       match openpgp_readMessage armored with
       | inl e => inl e
       | inr message => openpgp_decrypt_passwords message key
       end, w).
Proof.
  unfold PGPService.decrypt, tryCatch, bind, settle.
  destruct (openpgp_readMessage armored) as [e|message]; simpl;
    [reflexivity|].
  now destruct (openpgp_decrypt_passwords message key).
Qed.

Lemma encryptAsymmetric_inr privateKey encryptionKeys text w armored w' :
  PGPService.encryptAsymmetric privateKey encryptionKeys text w
    = (inr armored, w') <->
  exists message,
    openpgp_createMessage text = inr message /\
    openpgp_encrypt_keys message encryptionKeys privateKey w
      = (inr armored, w').
Proof.
  unfold PGPService.encryptAsymmetric. rewrite tryCatch_inr.
  unfold bind, settle.
  destruct (openpgp_createMessage text) as [e|message]; split.
  - discriminate.
  - intros [m [E _]]. discriminate.
  - intros E. now exists message.
  - intros [m [E E']]. now injection E as ->.
Qed.

Lemma encrypt_inr key text w armored w' :
  PGPService.encrypt key text w = (inr armored, w') <->
  exists message,
    openpgp_createMessage text = inr message /\
    openpgp_encrypt_passwords message key w = (inr armored, w').
Proof.
  unfold PGPService.encrypt. rewrite tryCatch_inr.
  unfold bind, settle.
  destruct (openpgp_createMessage text) as [e|message]; split.
  - discriminate.
  - intros [m [E _]]. discriminate.
  - intros E. now exists message.
  - intros [m [E E']]. now injection E as ->.
Qed.

Context `{!OpenPGPContract}.

(** A wrapped key opens for a recipient that trusts its signer. *)
Lemma wrapped_key_opens signer recipients text w armored w'
      receiver trusted w2 :
  isDecrypted signer = true ->
  PGPService.encryptAsymmetric (Some signer) recipients text w
    = (inr armored, w') ->
  isDecrypted receiver = true ->
  In (Some (toPublic receiver)) recipients ->
  In (toPublic signer) trusted ->
  PGPService.decryptAsymmetric (Some receiver) (map Some trusted) armored w2
    = (inr (literalText text), w2).
Proof.
  intros Hs He Hr Hin Ht.
  apply encryptAsymmetric_inr in He as [message [Hm He]].
  edestruct keys_roundtrip as [received [Hread Hdec]];
    [exact Hm | exact Hs | exact He | exact Hr | exact Hin | exact Ht |].
  rewrite decryptAsymmetric_run, Hread, Hdec. reflexivity.
Qed.

(** The same for a text that its literal preserves, as a session key
    is. *)
Lemma wrapped_session_key_opens signer recipients key w armored w'
      receiver trusted w2 :
  literalText key = key ->
  isDecrypted signer = true ->
  PGPService.encryptAsymmetric (Some signer) recipients key w
    = (inr armored, w') ->
  isDecrypted receiver = true ->
  In (Some (toPublic receiver)) recipients ->
  In (toPublic signer) trusted ->
  PGPService.decryptAsymmetric (Some receiver) (map Some trusted) armored w2
    = (inr key, w2).
Proof.
  intros Hkey Hs He Hr Hin Ht.
  rewrite <- Hkey.
  eapply wrapped_key_opens;
    [exact Hs | exact He | exact Hr | exact Hin | exact Ht].
Qed.

(** A wrapped key is refused by a recipient that does not trust its
    signer. *)
Lemma wrapped_key_refused signer recipients text w armored w'
      receiver trusted w2 :
  isDecrypted signer = true ->
  PGPService.encryptAsymmetric (Some signer) recipients text w
    = (inr armored, w') ->
  isDecrypted receiver = true ->
  In (Some (toPublic receiver)) recipients ->
  ~ In (toPublic signer) trusted ->
  PGPService.decryptAsymmetric (Some receiver) (map Some trusted) armored w2
    = (inl (Tagged "pgp.decryptAsymmetric"
              (Thrown SignatureVerificationError)), w2).
Proof.
  intros Hs He Hr Hin Ht.
  apply encryptAsymmetric_inr in He as [message [Hm He]].
  edestruct keys_untrusted_signer as [received [Hread Hdec]];
    [exact Hm | exact Hs | exact He | exact Hr | exact Hin | exact Ht |].
  rewrite decryptAsymmetric_run, Hread, Hdec. reflexivity.
Qed.

(** Encrypted data opens under the session key it was encrypted with. *)
Lemma encrypted_data_opens key text w armored w' w2 :
  PGPService.encrypt key text w = (inr armored, w') ->
  PGPService.decrypt key armored w2 = (inr (literalText text), w2).
Proof.
  intros He. apply encrypt_inr in He as [message [Hm He]].
  edestruct passwords_roundtrip as [received [Hread Hdec]];
    [exact Hm | exact He |].
  rewrite decrypt_run, Hread, Hdec. reflexivity.
Qed.

(** With an absent recipient the wrap fails, and with an absent private
    key the unwrap fails; the failure carries the name of the operation. *)
Lemma encryptAsymmetric_absent privateKey encryptionKeys text w :
  In None encryptionKeys ->
  exists cause w',
    PGPService.encryptAsymmetric privateKey encryptionKeys text w
    = (inl (Tagged "pgp.encryptAsymmetric" cause), w').
Proof.
  intros Hin. unfold PGPService.encryptAsymmetric, tryCatch, bind, settle.
  destruct (openpgp_createMessage text) as [e|message]; [eauto|].
  destruct (encrypt_absent_recipient message encryptionKeys privateKey w Hin)
    as [e He].
  destruct (openpgp_encrypt_keys message encryptionKeys privateKey w)
    as [r w']. simpl in He. subst r. eauto.
Qed.

Lemma decryptAsymmetric_absent verificationKeys armored w :
  exists cause,
    PGPService.decryptAsymmetric None verificationKeys armored w
    = (inl (Tagged "pgp.decryptAsymmetric" cause), w).
Proof.
  rewrite decryptAsymmetric_run.
  destruct (openpgp_readMessage armored) as [e|message]; [simpl; eauto|].
  destruct (decrypt_absent_key message verificationKeys) as [e ->].
  simpl. eauto.
Qed.

End ServiceFacts.

(** ** The protocol operations, step by step *)

Section ProtocolFacts.
Context `{OpenPGP} `{Models}.

Lemma encrypt_inr_steps this data w item w' :
  OpenE2EE.encrypt this data w = (inr item, w') ->
  exists key encryptedKey encryptedData w1 w2,
    PGPService.generateEncryptionKey this.(OpenE2EE.publicKey) w
      = (inr key, w1) /\
    PGPService.encryptAsymmetric this.(OpenE2EE.privateKey)
      [this.(OpenE2EE.publicKey)] key w1 = (inr encryptedKey, w2) /\
    PGPService.encrypt key data w2 = (inr encryptedData, w') /\
    item = {| MessageItemEncrypted.key := key;
              MessageItemEncrypted.encryptedMessage :=
                writeEncryptedMessage encryptedKey encryptedData |}.
Proof.
  unfold OpenE2EE.encrypt. intros E.
  apply bind_inr in E as [key [w1 [Hkey E]]].
  apply bind_inr in E as [[encryptedKey encryptedData] [w3 [Hall E]]].
  apply Promise_all2_inr in Hall as [w2 [Hwrap Hdata]].
  unfold resolve in E. injection E as <- <-.
  now exists key, encryptedKey, encryptedData, w1, w2.
Qed.

Lemma decrypt_opens this envelope external parts keys key data w :
  readEncryptedMessage envelope = inr parts ->
  Promise_all (map PGPService.readPublicKey external) w = (inr keys, w) ->
  PGPService.decryptAsymmetric this.(OpenE2EE.privateKey)
    (this.(OpenE2EE.publicKey) :: map Some keys)
    parts.(EncryptedParts.encryptedKey) w = (inr key, w) ->
  PGPService.decrypt key parts.(EncryptedParts.encryptedData) w
    = (inr data, w) ->
  OpenE2EE.decrypt this envelope external w
  = (inr {| MessageItem.key := key; MessageItem.data := data |}, w).
Proof.
  intros Hread Hkeys Hkey Hdata. unfold OpenE2EE.decrypt.
  erewrite bind_step by (unfold settle; rewrite Hread; reflexivity).
  erewrite bind_step by exact Hkeys.
  erewrite bind_step by exact Hkey.
  erewrite bind_step by exact Hdata.
  reflexivity.
Qed.

Lemma readPublicKey_inr armored w pk :
  openpgp_readKey armored = inr pk ->
  PGPService.readPublicKey armored w = (inr pk, w).
Proof. intros E. now rewrite readPublicKey_run, E. Qed.

Lemma readPublicKey_inr_inv armored w pk w' :
  PGPService.readPublicKey armored w = (inr pk, w') ->
  openpgp_readKey armored = inr pk /\ w' = w.
Proof.
  rewrite readPublicKey_run.
  destruct (openpgp_readKey armored); simpl; intros E;
    [discriminate | now injection E as -> ->].
Qed.

Lemma decryptPrivateKey_inr_inv armored passphrase w sk w' :
  PGPService.decryptPrivateKey armored passphrase w = (inr sk, w') ->
  exists locked,
    openpgp_readPrivateKey armored = inr locked /\
    openpgp_decryptKey locked passphrase = inr sk.
Proof.
  rewrite decryptPrivateKey_run.
  destruct (openpgp_readPrivateKey armored) as [e|locked]; simpl;
    [discriminate|].
  destruct (openpgp_decryptKey locked passphrase) as [e|sk'] eqn:E; simpl;
    [discriminate|].
  intros E'. injection E' as <- _. now exists locked.
Qed.

(** [load] either fails and leaves the fields as they were, or assigns
    the two handles and the two texts. *)
Lemma load_inr_steps encryptedPrivateKey publicKey this w this' w' :
  OpenE2EE.load encryptedPrivateKey publicKey this w = (inr tt, this', w') ->
  exists sk pk,
    PGPService.decryptPrivateKey encryptedPrivateKey
      this.(OpenE2EE.passphrase) w = (inr sk, w) /\
    openpgp_readKey publicKey = inr pk /\
    this' = OpenE2EE.assign_keys this sk pk encryptedPrivateKey publicKey.
Proof.
  unfold OpenE2EE.load.
  destruct (Promise_all2 _ _ w) as [[e|[sk pk]] w1] eqn:Hall;
    [discriminate|].
  intros E. injection E as <- <-.
  apply Promise_all2_inr in Hall as [w2 [Hsk Hpk]].
  apply readPublicKey_inr_inv in Hpk as [Hpk ->].
  exists sk, pk. repeat split; try assumption.
  rewrite decryptPrivateKey_run in Hsk |- *.
  now injection Hsk as -> <-.
Qed.

Lemma build_inr_steps this w this' w' :
  OpenE2EE.build this w = (inr tt, this', w') ->
  exists privateKey publicKey sk pk,
    PGPService.generateKeyPair this.(OpenE2EE.passphrase)
      this.(OpenE2EE.userId) w = (inr (privateKey, publicKey), w') /\
    PGPService.decryptPrivateKey privateKey this.(OpenE2EE.passphrase) w'
      = (inr sk, w') /\
    openpgp_readKey publicKey = inr pk /\
    this' = OpenE2EE.assign_keys this sk pk privateKey publicKey.
Proof.
  unfold OpenE2EE.build.
  match goal with
  | |- context [match ?m w with _ => _ end] =>
      destruct (m w) as [[e|[[[sk pk] privateKey] publicKey]] w1] eqn:Hrun
  end; [discriminate|].
  intros E. injection E as <- <-.
  apply bind_inr in Hrun as [[privateKey' publicKey'] [w2 [Hgen Hrun]]].
  apply bind_inr in Hrun as [[sk' pk'] [w3 [Hall Hrun]]].
  unfold resolve in Hrun. injection Hrun as -> -> -> -> ->.
  apply Promise_all2_inr in Hall as [w4 [Hsk Hpk]].
  apply readPublicKey_inr_inv in Hpk as [Hpk ->].
  assert (w2 = w4) as ->.
  { rewrite decryptPrivateKey_run in Hsk. now injection Hsk. }
  exists privateKey, publicKey, sk, pk. simpl. auto.
Qed.

Context `{!OpenPGPContract}.

Lemma assign_keys_ready this sk pk privateKeyText publicKeyText locked :
  openpgp_decryptKey locked this.(OpenE2EE.passphrase) = inr sk ->
  openpgp_readKey publicKeyText = inr pk ->
  toPublic sk = pk ->
  ready (OpenE2EE.assign_keys this sk pk privateKeyText publicKeyText).
Proof.
  intros Hsk Hpk Hpair. exists sk, pk. simpl.
  repeat split; try assumption.
  eapply decryptKey_isDecrypted; eassumption.
Qed.

(** An identity on which [build] has completed is ready. *)
Lemma built_ready this : built this -> ready this.
Proof.
  intros [this0 [w0 [w1 Hbuild]]].
  apply build_inr_steps in Hbuild
    as [privateKey [publicKey [sk [pk [Hgen [Hsk [Hpk ->]]]]]]].
  apply decryptPrivateKey_inr_inv in Hsk as [locked [Hlocked Hsk]].
  apply (proj1 (tryCatch_inr _ _ _ _ _)) in Hgen.
  eapply assign_keys_ready; try eassumption.
  eapply generateKey_pair; eassumption.
Qed.

(** An identity on which [load] has completed with the two keys of one
    pair is ready. *)
Lemma loaded_ready this : loaded this -> key_pair this -> ready this.
Proof.
  intros [a [b [this0 [w0 [w1 Hload]]]]] Hpair.
  apply load_inr_steps in Hload as [sk [pk [Hsk [Hpk ->]]]].
  apply decryptPrivateKey_inr_inv in Hsk as [locked [Hlocked Hsk]].
  eapply assign_keys_ready; try eassumption.
  now apply Hpair.
Qed.

(** An identity on which [build] has completed, or [load] with the two
    keys of one pair, is ready. *)
Lemma complete_ready this :
  built this \/ (loaded this /\ key_pair this) -> ready this.
Proof.
  intros [Hb | [Hl Hp]]; [now apply built_ready | now apply loaded_ready].
Qed.

(** After [build] or [load] has completed, whichever keys were loaded,
    the identity holds an unlocked private key and a public key. *)
Lemma complete_keys this :
  built this \/ loaded this ->
  exists sk pk,
    this.(OpenE2EE.privateKey) = Some sk /\
    this.(OpenE2EE.publicKey) = Some pk /\
    isDecrypted sk = true.
Proof.
  intros [Hb | [a [b [this0 [w0 [w1 Hload]]]]]].
  - apply built_ready in Hb as [sk [pk [Hsk [Hpk [Hun _]]]]].
    now exists sk, pk.
  - apply load_inr_steps in Hload as [sk [pk [Hsk [Hpk ->]]]].
    apply decryptPrivateKey_inr_inv in Hsk as [locked [_ Hsk]].
    exists sk, pk. repeat split.
    eapply decryptKey_isDecrypted; eassumption.
Qed.

Context `{!CodecContract} `{!SessionKeyContract}.

(** A generated session key is a hexadecimal string, which its text
    literal preserves. *)
Lemma generateEncryptionKey_literal publicKey w key w' :
  PGPService.generateEncryptionKey publicKey w = (inr key, w') ->
  literalText key = key.
Proof.
  unfold PGPService.generateEncryptionKey. intros E.
  apply tryCatch_inr in E.
  apply bind_inr in E as [bytes [w1 [_ E]]].
  unfold resolve in E. injection E as <- _. apply hex_literalText.
Qed.

(** What a ready identity has encrypted it opens again, to the same
    session key and to the text literal of the data. *)
Lemma ready_roundtrip this data w item w' w2 :
  ready this ->
  OpenE2EE.encrypt this data w = (inr item, w') ->
  OpenE2EE.decrypt this item.(MessageItemEncrypted.encryptedMessage) [] w2
  = (inr {| MessageItem.key := item.(MessageItemEncrypted.key);
            MessageItem.data := literalText data |}, w2).
Proof.
  intros [sk [pk [Hsk [Hpk [Hun [Hpair Htext]]]]]] Henc.
  apply encrypt_inr_steps in Henc
    as [key [ek [ed [w1 [w3 [Hkey [Hwrap [Hdata ->]]]]]]]].
  apply generateEncryptionKey_literal in Hkey.
  simpl. rewrite Hsk, Hpk in Hwrap.
  eapply decrypt_opens.
  - apply read_write.
  - apply Promise_all_nil.
  - simpl. rewrite Hsk, Hpk.
    change [Some pk] with (map Some [pk]).
    eapply wrapped_session_key_opens; try eassumption;
      rewrite Hpair; simpl; auto.
  - simpl. eapply encrypted_data_opens. eassumption.
Qed.

End ProtocolFacts.

(** ** The length-prefixed codec *)

Module EnvelopeCodecFacts.
Import EnvelopeCodec.

Lemma split_colon_app (a b : string) :
  split_colon a = None ->
  split_colon (a ++ String ":" b) = Some (a, b).
Proof.
  induction a as [|c a IH]; simpl; intros Hn.
  - reflexivity.
  - destruct (Ascii.eqb c ":"); [discriminate|].
    destruct (split_colon a) as [[x y]|]; [discriminate|].
    now rewrite IH.
Qed.

Lemma split_colon_digits (d : uint) :
  split_colon (NilEmpty.string_of_uint d) = None.
Proof.
  induction d; simpl; try reflexivity; now rewrite IHd.
Qed.

Lemma nat_of_string_of_nat (n : nat) :
  nat_of_string (string_of_nat n) = Some n.
Proof.
  unfold nat_of_string, string_of_nat.
  rewrite NilEmpty.usu. simpl. now rewrite Unsigned.of_to.
Qed.

Lemma get_put_nat (n : nat) (rest : string) :
  get_nat (put_nat n rest) = Some (n, rest).
Proof.
  unfold get_nat, put_nat. simpl.
  rewrite split_colon_app by apply split_colon_digits.
  now rewrite nat_of_string_of_nat.
Qed.

Lemma take_app (a b : string) : take (String.length a) (a ++ b) = a.
Proof. induction a; simpl; [now destruct b | now rewrite IHa]. Qed.

Lemma drop_app (a b : string) : drop (String.length a) (a ++ b) = b.
Proof. induction a; simpl; [now destruct b | assumption]. Qed.

Lemma length_app (a b : string) :
  String.length (a ++ b) = String.length a + String.length b.
Proof. induction a; simpl; [reflexivity | now rewrite IHa]. Qed.

Lemma get_put_field (a rest : string) :
  get_field (put_field a rest) = Some (a, rest).
Proof.
  unfold get_field, put_field. rewrite get_put_nat.
  rewrite length_app.
  replace (Nat.leb (String.length a) (String.length a + String.length rest))
    with true by (symmetry; apply Nat.leb_le; lia).
  now rewrite take_app, drop_app.
Qed.

End EnvelopeCodecFacts.

(** ** The symbolic library meets the contract *)

Module SymbolicFacts.
Import EnvelopeCodec EnvelopeCodecFacts Symbolic.

Lemma get_put_nats (ks : list nat) (rest : string) :
  get_nats (List.length ks) (put_nats ks rest) = Some (ks, rest).
Proof.
  induction ks as [|k ks IH]; simpl.
  - reflexivity.
  - now rewrite get_put_nat, IH.
Qed.

Lemma readMessage_armor_signed signer recipients text :
  readMessage (armor_message (SignedFor signer recipients text))
  = inr (SignedFor signer recipients text).
Proof.
  unfold readMessage, armor_message.
  now rewrite !get_put_nat, get_put_nats.
Qed.

Lemma readMessage_armor_locked password text :
  readMessage (armor_message (LockedWith password text))
  = inr (LockedWith password text).
Proof.
  unfold readMessage, armor_message. now rewrite get_put_field.
Qed.

Lemma readKey_armor_public k : readKey (armor_public k) = inr k.
Proof.
  unfold readKey, armor_public. now rewrite nat_of_string_of_nat.
Qed.

Lemma readPrivateKey_armor_private k passphrase :
  readPrivateKey (armor_private k passphrase) = inr (k, Some passphrase).
Proof.
  unfold readPrivateKey, armor_private. now rewrite get_put_nat.
Qed.

Lemma present_In ks recipients k :
  present ks = Some recipients -> In (Some k) ks -> In k recipients.
Proof.
  revert recipients.
  induction ks as [|[k0|] ks IH]; simpl; intros recipients Hp Hin.
  - contradiction.
  - destruct (present ks) as [rs|]; [|discriminate].
    injection Hp as <-. destruct Hin as [E|Hin].
    + injection E as ->. now left.
    + right. now apply IH.
  - discriminate.
Qed.

Lemma present_None ks : In None ks -> present ks = None.
Proof.
  induction ks as [|[k0|] ks IH]; simpl; intros Hin.
  - contradiction.
  - destruct Hin as [E|Hin]; [discriminate|]. now rewrite IH.
  - reflexivity.
Qed.

Lemma existsb_eqb_In k ks : existsb (Nat.eqb k) ks = true <-> In k ks.
Proof.
  rewrite existsb_exists. split.
  - intros [x [Hin E]]. apply Nat.eqb_eq in E. now subst.
  - intros Hin. exists k. split; [assumption | apply Nat.eqb_refl].
Qed.

Lemma trusts_map_Some trusted signer :
  trusts (map Some trusted) signer = true <-> In signer trusted.
Proof.
  unfold trusts. rewrite existsb_exists. split.
  - intros [[k|] [Hin E]]; [|discriminate].
    apply Nat.eqb_eq in E. subst k.
    apply in_map_iff in Hin as [x [Ex Hin]]. now injection Ex as ->.
  - intros Hin. exists (Some signer). split.
    + now apply in_map.
    + apply Nat.eqb_refl.
Qed.

(** What [encrypt_keys] returns when it returns a cipher text. *)
Lemma encrypt_keys_inr message recipients signer w armored w' :
  encrypt_keys message recipients (Some signer) w = (inr armored, w') ->
  exists text ids,
    message = Literal text /\
    present recipients = Some ids /\
    snd signer = None /\
    armored = armor_message (SignedFor (fst signer) ids text).
Proof.
  unfold encrypt_keys.
  destruct message as [text| |]; try discriminate.
  destruct signer as [k [protection|]]; try discriminate.
  destruct (present recipients) as [ids|]; try discriminate.
  intros E. injection E as <- _. now exists text, ids.
Qed.

#[export] Instance contract : OpenPGPContract.
Proof.
  constructor; simpl.
  - (* generateKey_pair *)
    intros passphrase userId w a b w' locked sk pk Hgen.
    unfold generateKey in Hgen. injection Hgen as <- <- _.
    rewrite readPrivateKey_armor_private, readKey_armor_public.
    intros E. injection E as <-. unfold decryptKey.
    destruct (String.eqb passphrase passphrase); [|discriminate].
    intros E. injection E as <-. intros E. now injection E as <-.
  - (* decryptKey_isDecrypted *)
    intros [k [protection|]] passphrase sk; simpl; [|discriminate].
    destruct (String.eqb passphrase protection); [|discriminate].
    intros E. now injection E as <-.
  - (* decryptKey_wrong_passphrase *)
    intros [k [protection|]] q sk p; simpl; [|discriminate].
    destruct (String.eqb q protection) eqn:Eq; [|discriminate].
    apply String.eqb_eq in Eq. subst protection. intros _ Hneq.
    destruct (String.eqb p q) eqn:Ep; [|reflexivity].
    apply String.eqb_eq in Ep. contradiction.
  - (* keys_roundtrip *)
    intros text message signer recipients w armored w' receiver trusted
      Hm Hs He Hr Hin Ht.
    injection Hm as <-.
    apply encrypt_keys_inr in He as [text' [ids [Et [Hp [_ ->]]]]].
    injection Et as <-.
    exists (SignedFor (fst signer) ids (nativeEOL text)). split.
    + apply readMessage_armor_signed.
    + destruct receiver as [k [protection|]]; [discriminate|]. simpl in *.
      eapply present_In in Hin; [|exact Hp].
      apply existsb_eqb_In in Hin. rewrite Hin.
      apply trusts_map_Some in Ht. now rewrite Ht.
  - (* keys_untrusted_signer *)
    intros text message signer recipients w armored w' receiver trusted
      Hm Hs He Hr Hin Ht.
    injection Hm as <-.
    apply encrypt_keys_inr in He as [text' [ids [Et [Hp [_ ->]]]]].
    injection Et as <-.
    exists (SignedFor (fst signer) ids (nativeEOL text)). split.
    + apply readMessage_armor_signed.
    + destruct receiver as [k [protection|]]; [discriminate|]. simpl in *.
      eapply present_In in Hin; [|exact Hp].
      apply existsb_eqb_In in Hin. rewrite Hin.
      destruct (trusts (map Some trusted) (fst signer)) eqn:E;
        [|reflexivity].
      apply trusts_map_Some in E. contradiction.
  - (* passwords_roundtrip *)
    intros text message password w armored w' Hm He.
    injection Hm as <-. unfold encrypt_passwords in He.
    injection He as <- _.
    exists (LockedWith password (nativeEOL text)). split.
    + apply readMessage_armor_locked.
    + simpl. now rewrite String.eqb_refl.
  - (* encrypt_absent_recipient *)
    intros message recipients signer w Hin. unfold encrypt_keys.
    rewrite (present_None recipients Hin).
    destruct message; destruct signer as [[k [p|]]|]; simpl; eauto.
  - (* decrypt_absent_key *)
    intros message trusted. unfold decrypt_keys.
    destruct message; eauto.
Qed.

#[export] Instance codec_contract : CodecContract.
Proof.
  constructor. intros a b. simpl.
  unfold EnvelopeCodec.readEncryptedMessage,
    EnvelopeCodec.writeEncryptedMessage.
  now rewrite get_put_field.
Qed.

(** A string without a carriage return is rendered as it is. *)
Lemma nativeEOL_no_CR (s : string) : no_CR s -> nativeEOL s = s.
Proof.
  induction s as [|c s IH]; simpl; [reflexivity|].
  intros [Hc Hs]. rewrite (IH Hs).
  destruct s as [|c' s']; [reflexivity|].
  destruct (Ascii.eqb c "013") eqn:E; [|reflexivity].
  apply Ascii.eqb_eq in E. contradiction.
Qed.

Lemma no_CR_app (a b : string) : no_CR a -> no_CR b -> no_CR (a ++ b).
Proof. induction a; simpl; [auto | intros [Hc Ha] Hb; auto]. Qed.

Lemma hex_digit_no_CR (n : nat) : hex_digit n <> "013"%char.
Proof.
  unfold hex_digit. simpl.
  do 16 (destruct n as [|n]; [discriminate|]). destruct n; discriminate.
Qed.

Lemma hex_no_CR (bytes : list byte) : no_CR (hex bytes).
Proof.
  assert (forall b, no_CR (hex_of_byte b)) as Hbyte.
  { intros b. simpl. repeat split; apply hex_digit_no_CR. }
  unfold hex. induction bytes as [|b bytes IH]; [exact I|].
  destruct bytes as [|b' bytes']; [apply Hbyte|].
  change (no_CR (hex_of_byte b
                 ++ String.concat EmptyString
                      (map hex_of_byte (b' :: bytes')))).
  apply no_CR_app; [apply Hbyte | exact IH].
Qed.

#[export] Instance session_key_contract : SessionKeyContract.
Proof.
  constructor. intros bytes. simpl. apply nativeEOL_no_CR, hex_no_CR.
Qed.

End SymbolicFacts.

(** ** Where a failure comes from *)

Section FailureOrigins.
Context `{OpenPGP} `{Models}.

Ltac caught H :=
  apply tryCatch_inl in H as [?cause [-> _]]; eexists; reflexivity.

Lemma generateKeyPair_inl passphrase userId w e w' :
  PGPService.generateKeyPair passphrase userId w = (inl e, w') ->
  exists cause, e = Tagged "pgp.generateKeyPair" cause.
Proof. intros E. unfold PGPService.generateKeyPair in E. caught E. Qed.

Lemma generateEncryptionKey_inl publicKey w e w' :
  PGPService.generateEncryptionKey publicKey w = (inl e, w') ->
  exists cause, e = Tagged "pgp.generateEncryptionKey" cause.
Proof. intros E. unfold PGPService.generateEncryptionKey in E. caught E. Qed.

Lemma readPublicKey_inl armored w e w' :
  PGPService.readPublicKey armored w = (inl e, w') ->
  exists cause, e = Tagged "pgp.readPublicKey" cause.
Proof. intros E. unfold PGPService.readPublicKey in E. caught E. Qed.

Lemma readPrivateKey_inl armored w e w' :
  PGPService.readPrivateKey armored w = (inl e, w') ->
  exists cause, e = Tagged "pgp.readPrivateKey" cause.
Proof. intros E. unfold PGPService.readPrivateKey in E. caught E. Qed.

Lemma decryptPrivateKey_inl armored passphrase w e w' :
  PGPService.decryptPrivateKey armored passphrase w = (inl e, w') ->
  exists cause, e = Tagged "pgp.decryptPrivateKey" cause.
Proof. intros E. unfold PGPService.decryptPrivateKey in E. caught E. Qed.

Lemma encryptAsymmetric_inl privateKey encryptionKeys data w e w' :
  PGPService.encryptAsymmetric privateKey encryptionKeys data w
    = (inl e, w') ->
  exists cause, e = Tagged "pgp.encryptAsymmetric" cause.
Proof. intros E. unfold PGPService.encryptAsymmetric in E. caught E. Qed.

Lemma decryptAsymmetric_inl privateKey verificationKeys data w e w' :
  PGPService.decryptAsymmetric privateKey verificationKeys data w
    = (inl e, w') ->
  exists cause, e = Tagged "pgp.decryptAsymmetric" cause.
Proof. intros E. unfold PGPService.decryptAsymmetric in E. caught E. Qed.

Lemma encrypt_inl key data w e w' :
  PGPService.encrypt key data w = (inl e, w') ->
  exists cause, e = Tagged "pgp.encrypt" cause.
Proof. intros E. unfold PGPService.encrypt in E. caught E. Qed.

Lemma decrypt_inl key data w e w' :
  PGPService.decrypt key data w = (inl e, w') ->
  exists cause, e = Tagged "pgp.decrypt" cause.
Proof. intros E. unfold PGPService.decrypt in E. caught E. Qed.

Ltac tag := eexists _, _; split; [reflexivity | simpl; tauto].

Lemma readPublicKeys_inl (armored : list string) w e w' :
  Promise_all (map PGPService.readPublicKey armored) w = (inl e, w') ->
  exists cause, e = Tagged "pgp.readPublicKey" cause.
Proof.
  intros E. apply Promise_all_inl in E as [p [w1 [w2 [Hin E]]]].
  apply in_map_iff in Hin as [a [<- _]].
  now apply readPublicKey_inl in E.
Qed.

Lemma encrypt_inl_origin this data w e w' :
  OpenE2EE.encrypt this data w = (inl e, w') ->
  tagged_by
    ["pgp.generateEncryptionKey"; "pgp.encryptAsymmetric"; "pgp.encrypt"] e.
Proof.
  unfold OpenE2EE.encrypt. intros E.
  apply bind_inl in E as [E | [key [w1 [_ E]]]].
  { apply generateEncryptionKey_inl in E as [c ->]. tag. }
  apply bind_inl in E as [E | [[ek ed] [w2 [_ E]]]]; [|discriminate].
  apply Promise_all2_inl in E as [r1 [w2 [r2 [E1 [E2 [-> | ->]]]]]].
  - apply encryptAsymmetric_inl in E1 as [c ->]. tag.
  - apply encrypt_inl in E2 as [c ->]. tag.
Qed.

Lemma decrypt_inl_origin this envelope external w e w' :
  OpenE2EE.decrypt this envelope external w = (inl e, w') ->
  readEncryptedMessage envelope = inl e \/
  tagged_by ["pgp.readPublicKey"; "pgp.decryptAsymmetric"; "pgp.decrypt"] e.
Proof.
  unfold OpenE2EE.decrypt. intros E.
  apply bind_inl in E as [E | [parts [w1 [_ E]]]].
  { left. unfold settle in E. now injection E. }
  right.
  apply bind_inl in E as [E | [keys [w2 [_ E]]]].
  { apply readPublicKeys_inl in E as [c ->]. tag. }
  apply bind_inl in E as [E | [key [w3 [_ E]]]].
  { apply decryptAsymmetric_inl in E as [c ->]. tag. }
  apply bind_inl in E as [E | [data [w4 [_ E]]]]; [|discriminate].
  apply decrypt_inl in E as [c ->]. tag.
Qed.

(** The step at which [share] fails, and the tag the failure carries. *)
Lemma share_inl_steps this receiverPublicKey envelope w e w' :
  OpenE2EE.share this receiverPublicKey envelope w = (inl e, w') ->
  readEncryptedMessage envelope = inl e \/
  (exists cause, e = Tagged "pgp.readPublicKey" cause /\
     PGPService.readPublicKey receiverPublicKey w = (inl e, w')) \/
  (exists cause parts, e = Tagged "pgp.decryptAsymmetric" cause /\
     readEncryptedMessage envelope = inr parts /\
     PGPService.decryptAsymmetric this.(OpenE2EE.privateKey)
       [this.(OpenE2EE.publicKey)] parts.(EncryptedParts.encryptedKey) w
     = (inl e, w')) \/
  (exists cause receiver sharedKey,
     e = Tagged "pgp.encryptAsymmetric" cause /\
     PGPService.encryptAsymmetric this.(OpenE2EE.privateKey)
       [this.(OpenE2EE.publicKey); Some receiver] sharedKey w
     = (inl e, w')).
Proof.
  unfold OpenE2EE.share. intros E.
  apply bind_inl in E as [E | [parts [w1 [Hparts E]]]].
  { left. unfold settle in E. now injection E. }
  unfold settle in Hparts. injection Hparts as Hparts <-.
  right.
  apply bind_inl in E as [E | [receiver [w2 [Hr E]]]].
  { left. destruct (readPublicKey_inl _ _ E) as [c ->]. eauto. }
  apply readPublicKey_inr_inv in Hr as [_ ->].
  right.
  apply bind_inl in E as [E | [sharedKey [w3 [Hk E]]]].
  { left. destruct (decryptAsymmetric_inl _ _ _ _ E) as [c ->]. eauto. }
  rewrite decryptAsymmetric_run in Hk. injection Hk as _ <-.
  right.
  apply bind_inl in E as [E | [newKey [w4 [_ E]]]]; [|discriminate].
  destruct (encryptAsymmetric_inl _ _ _ _ E) as [c ->]. eauto 6.
Qed.

Lemma share_inl_origin this receiverPublicKey envelope w e w' :
  OpenE2EE.share this receiverPublicKey envelope w = (inl e, w') ->
  readEncryptedMessage envelope = inl e \/
  tagged_by
    ["pgp.readPublicKey"; "pgp.decryptAsymmetric"; "pgp.encryptAsymmetric"]
    e.
Proof.
  intros E.
  destruct (share_inl_steps _ _ _ _ E)
    as [E1 | [[c [-> _]] | [[c [p [-> _]]] | [c [r [k [-> _]]]]]]];
    [now left | right; tag ..].
Qed.

Lemma shareNew_inl_origin this receiverPublicKey data w e w' :
  OpenE2EE.shareNew this receiverPublicKey data w = (inl e, w') ->
  (exists envelope, readEncryptedMessage envelope = inl e) \/
  tagged_by
    ["pgp.readPublicKey"; "pgp.generateEncryptionKey";
     "pgp.encryptAsymmetric"; "pgp.encrypt"] e.
Proof.
  unfold OpenE2EE.shareNew. intros E.
  apply bind_inl in E as [E | [receiver [w1 [_ E]]]].
  { right. apply readPublicKey_inl in E as [c ->]. tag. }
  apply bind_inl in E as [E | [item [w2 [_ E]]]].
  { right. apply encrypt_inl_origin in E as [op [c [-> Hin]]].
    exists op, c. split; [reflexivity | simpl in *; tauto]. }
  apply bind_inl in E as [E | [newKey [w3 [_ E]]]].
  { right. apply encryptAsymmetric_inl in E as [c ->]. tag. }
  apply bind_inl in E as [E | [parts [w4 [_ E]]]]; [|discriminate].
  left. unfold settle in E. injection E as E _. eauto.
Qed.

Lemma load_inl_steps encryptedPrivateKey publicKey this w e this' w' :
  OpenE2EE.load encryptedPrivateKey publicKey this w = (inl e, this', w') ->
  this' = this /\ w' = w /\
  (PGPService.decryptPrivateKey encryptedPrivateKey
     this.(OpenE2EE.passphrase) w = (inl e, w) \/
   PGPService.readPublicKey publicKey w = (inl e, w)).
Proof.
  unfold OpenE2EE.load.
  destruct (Promise_all2 _ _ w) as [[e1|[sk pk]] w1] eqn:Hall;
    [|discriminate].
  intros E. injection E as <- <- <-.
  apply Promise_all2_inl in Hall as [r1 [w2 [r2 [E1 [E2 Hor]]]]].
  rewrite decryptPrivateKey_run in E1. injection E1 as <- <-.
  rewrite readPublicKey_run in E2. injection E2 as <- <-.
  rewrite decryptPrivateKey_run, readPublicKey_run.
  repeat split. destruct Hor as [-> | ->]; auto.
Qed.

Lemma build_inl_steps this w e this' w' :
  OpenE2EE.build this w = (inl e, this', w') ->
  this' = this /\
  tagged_by
    ["pgp.generateKeyPair"; "pgp.decryptPrivateKey"; "pgp.readPublicKey"] e.
Proof.
  unfold OpenE2EE.build.
  match goal with
  | |- context [match ?m w with _ => _ end] =>
      destruct (m w) as [[e1|[[[sk pk] a] b]] w1] eqn:Hrun
  end; [|discriminate].
  intros E. injection E as <- <- <-. split; [reflexivity|].
  apply bind_inl in Hrun as [E | [[a b] [w2 [_ E]]]].
  { apply generateKeyPair_inl in E as [c ->]. tag. }
  apply bind_inl in E as [E | [keys [w3 [_ E]]]]; [|discriminate].
  apply Promise_all2_inl in E as [r1 [w4 [r2 [E1 [E2 [-> | ->]]]]]].
  - apply decryptPrivateKey_inl in E1 as [c ->]. tag.
  - apply readPublicKey_inl in E2 as [c ->]. tag.
Qed.









(** A call of [build] or [load] that fails assigns nothing, so an
    uninitialised identity is as its constructor left it. *)
Lemma uninitialised_constructor this :
  uninitialised this ->
  exists userId passphrase, this = OpenE2EE.constructor userId passphrase.
Proof.
  induction 1
    as [u p | this this' w w' e _ IH Hb | this this' a b w w' e _ IH Hl].
  - now exists u, p.
  - apply build_inl_steps in Hb as [-> _]. exact IH.
  - apply load_inl_steps in Hl as [-> _]. exact IH.
Qed.

Lemma uninitialised_unready this : uninitialised this -> unready this.
Proof.
  intros Hun. apply uninitialised_constructor in Hun as [u [p ->]].
  split; reflexivity.
Qed.

End FailureOrigins.

(** ** Sharing, step by step *)

Section SharingFacts.
Context `{OpenPGP} `{Models}.

Lemma share_inr_steps this receiverPublicKey envelope w out w' :
  OpenE2EE.share this receiverPublicKey envelope w = (inr out, w') ->
  exists parts receiver sharedKey newKey,
    readEncryptedMessage envelope = inr parts /\
    openpgp_readKey receiverPublicKey = inr receiver /\
    PGPService.decryptAsymmetric this.(OpenE2EE.privateKey)
      [this.(OpenE2EE.publicKey)] parts.(EncryptedParts.encryptedKey) w
      = (inr sharedKey, w) /\
    PGPService.encryptAsymmetric this.(OpenE2EE.privateKey)
      [this.(OpenE2EE.publicKey); Some receiver] sharedKey w
      = (inr newKey, w') /\
    out = {| ShareItemOut.senderPublicKey := this.(OpenE2EE.publicKeyText);
             ShareItemOut.receiverEncryptedMessage :=
               writeEncryptedMessage newKey
                 parts.(EncryptedParts.encryptedData) |}.
Proof.
  unfold OpenE2EE.share. intros E.
  apply bind_inr in E as [parts [w1 [Hparts E]]].
  unfold settle in Hparts. injection Hparts as Hparts <-.
  apply bind_inr in E as [receiver [w2 [Hr E]]].
  apply readPublicKey_inr_inv in Hr as [Hr ->].
  apply bind_inr in E as [sharedKey [w3 [Hk E]]].
  assert (w3 = w) as ->.
  { rewrite decryptAsymmetric_run in Hk. now injection Hk. }
  apply bind_inr in E as [newKey [w4 [Hn E]]].
  unfold resolve in E. injection E as <- <-.
  now exists parts, receiver, sharedKey, newKey.
Qed.

Lemma shareNew_inr_steps this receiverPublicKey data w out w' :
  OpenE2EE.shareNew this receiverPublicKey data w = (inr out, w') ->
  exists receiver item w1 newKey parts,
    openpgp_readKey receiverPublicKey = inr receiver /\
    OpenE2EE.encrypt this data w = (inr item, w1) /\
    PGPService.encryptAsymmetric this.(OpenE2EE.privateKey)
      [Some receiver] item.(MessageItemEncrypted.key) w1
      = (inr newKey, w') /\
    readEncryptedMessage item.(MessageItemEncrypted.encryptedMessage)
      = inr parts /\
    out = {| ShareNewItemOut.senderPublicKey :=
               this.(OpenE2EE.publicKeyText);
             ShareNewItemOut.senderEncryptedMessage :=
               item.(MessageItemEncrypted.encryptedMessage);
             ShareNewItemOut.receiverEncryptedMessage :=
               writeEncryptedMessage newKey
                 parts.(EncryptedParts.encryptedData) |}.
Proof.
  unfold OpenE2EE.shareNew. intros E.
  apply bind_inr in E as [receiver [w0 [Hr E]]].
  apply readPublicKey_inr_inv in Hr as [Hr ->].
  apply bind_inr in E as [item [w1 [Hitem E]]].
  apply bind_inr in E as [newKey [w2 [Hn E]]].
  apply bind_inr in E as [parts [w3 [Hparts E]]].
  unfold settle in Hparts. injection Hparts as Hparts <-.
  unfold resolve in E. injection E as <- <-.
  now exists receiver, item, w1, newKey, parts.
Qed.

(** [receive] from a sender whose armoured key parses opens an envelope
    whose wrapped key opens under the trust set of the receiver and the
    sender. *)
Lemma receive_opens this senderPublicKey sender envelope parts key data w :
  openpgp_readKey senderPublicKey = inr sender ->
  readEncryptedMessage envelope = inr parts ->
  PGPService.decryptAsymmetric this.(OpenE2EE.privateKey)
    (this.(OpenE2EE.publicKey) :: [Some sender])
    parts.(EncryptedParts.encryptedKey) w = (inr key, w) ->
  PGPService.decrypt key parts.(EncryptedParts.encryptedData) w
    = (inr data, w) ->
  OpenE2EE.receive this senderPublicKey envelope w
  = (inr {| MessageItem.key := key; MessageItem.data := data |}, w).
Proof.
  intros Hs Hparts Hkey Hdata. unfold OpenE2EE.receive.
  eapply decrypt_opens with (keys := [sender]); try eassumption.
  apply Promise_all_one. now apply readPublicKey_inr.
Qed.

Context `{!OpenPGPContract}.

(** Without key handles no operation returns a value. *)
Lemma unready_encrypt_fails this data w :
  unready this ->
  exists e w', OpenE2EE.encrypt this data w = (inl e, w').
Proof.
  intros [Hsk Hpk]. unfold OpenE2EE.encrypt. rewrite Hsk, Hpk.
  destruct (PGPService.generateEncryptionKey None w) as [[e|key] w1] eqn:Ek.
  - exists e, w1. now apply bind_fail.
  - erewrite bind_step by exact Ek.
    destruct (encryptAsymmetric_absent None [None] key w1) as [c [w2 Ea]];
      [now left|].
    destruct (Promise_all2_left _ (PGPService.encrypt key data) _ Ea)
      as [e [w3 Eall]].
    exists e, w3. now apply bind_fail.
Qed.

Lemma unready_decrypt_fails this envelope external w :
  unready this ->
  exists e w', OpenE2EE.decrypt this envelope external w = (inl e, w').
Proof.
  intros [Hsk Hpk]. unfold OpenE2EE.decrypt. rewrite Hsk, Hpk.
  destruct (readEncryptedMessage envelope) as [e|parts] eqn:Eparts.
  { exists e, w. now apply bind_fail. }
  erewrite bind_step by reflexivity.
  destruct (Promise_all (map PGPService.readPublicKey external) w)
    as [[e|keys] w1] eqn:Ekeys.
  { exists e, w1. now apply bind_fail. }
  erewrite bind_step by exact Ekeys.
  destruct (decryptAsymmetric_absent (None :: map Some keys)
              parts.(EncryptedParts.encryptedKey) w1) as [c Ed].
  eexists _, w1. apply bind_fail. exact Ed.
Qed.

Lemma unready_share_fails this receiverPublicKey envelope w :
  unready this ->
  exists e w',
    OpenE2EE.share this receiverPublicKey envelope w = (inl e, w').
Proof.
  intros [Hsk Hpk]. unfold OpenE2EE.share. rewrite Hsk, Hpk.
  destruct (readEncryptedMessage envelope) as [e|parts] eqn:Eparts.
  { exists e, w. now apply bind_fail. }
  erewrite bind_step by reflexivity.
  destruct (PGPService.readPublicKey receiverPublicKey w)
    as [[e|receiver] w1] eqn:Er.
  { exists e, w1. now apply bind_fail. }
  erewrite bind_step by exact Er.
  destruct (decryptAsymmetric_absent [None]
              parts.(EncryptedParts.encryptedKey) w1) as [c Ed].
  eexists _, w1. apply bind_fail. exact Ed.
Qed.

Lemma unready_shareNew_fails this receiverPublicKey data w :
  unready this ->
  exists e w',
    OpenE2EE.shareNew this receiverPublicKey data w = (inl e, w') /\
    tagged_by
      ["pgp.readPublicKey"; "pgp.generateEncryptionKey";
       "pgp.encryptAsymmetric"; "pgp.encrypt"] e.
Proof.
  intros Hun. unfold OpenE2EE.shareNew.
  destruct (PGPService.readPublicKey receiverPublicKey w)
    as [[e|receiver] w1] eqn:Er.
  { exists e, w1. split; [now apply bind_fail|].
    apply readPublicKey_inl in Er as [c ->].
    eexists _, _. split; [reflexivity | simpl; tauto]. }
  erewrite bind_step by exact Er.
  destruct (unready_encrypt_fails data w1 Hun) as [e [w2 Ee]].
  exists e, w2. split; [now apply bind_fail|].
  apply encrypt_inl_origin in Ee as [op [c [-> Hin]]].
  exists op, c. split; [reflexivity | simpl in *; tauto].
Qed.

End SharingFacts.

(** ** Opening an envelope, step by step *)

Section OpeningFacts.
Context `{OpenPGP} `{Models}.

Lemma decrypt_inr_steps this envelope w opened w' :
  OpenE2EE.decrypt this envelope [] w = (inr opened, w') ->
  exists parts,
    readEncryptedMessage envelope = inr parts /\
    PGPService.decryptAsymmetric this.(OpenE2EE.privateKey)
      [this.(OpenE2EE.publicKey)] parts.(EncryptedParts.encryptedKey) w
      = (inr opened.(MessageItem.key), w) /\
    PGPService.decrypt opened.(MessageItem.key)
      parts.(EncryptedParts.encryptedData) w
      = (inr opened.(MessageItem.data), w) /\
    w' = w.
Proof.
  unfold OpenE2EE.decrypt. intros E.
  apply bind_inr in E as [parts [w1 [Hparts E]]].
  unfold settle in Hparts. injection Hparts as Hparts <-.
  apply bind_inr in E as [keys [w2 [Hkeys E]]].
  simpl map in Hkeys. rewrite Promise_all_nil in Hkeys.
  injection Hkeys as <- <-.
  apply bind_inr in E as [key [w3 [Hkey E]]].
  assert (w3 = w) as ->.
  { rewrite decryptAsymmetric_run in Hkey. now injection Hkey. }
  apply bind_inr in E as [data [w4 [Hdata E]]].
  assert (w4 = w) as ->.
  { rewrite decrypt_run in Hdata. now injection Hdata. }
  unfold resolve in E. injection E as <- <-.
  exists parts. simpl. auto.
Qed.

(** [share] of an envelope that opens, with a receiver key that parses,
    is the re-wrap of the session key followed by the packing. *)
Lemma share_of_opened this receiverPublicKey envelope receiver parts key w :
  readEncryptedMessage envelope = inr parts ->
  openpgp_readKey receiverPublicKey = inr receiver ->
  PGPService.decryptAsymmetric this.(OpenE2EE.privateKey)
    [this.(OpenE2EE.publicKey)] parts.(EncryptedParts.encryptedKey) w
    = (inr key, w) ->
  OpenE2EE.share this receiverPublicKey envelope w
  = (newKey <-
       PGPService.encryptAsymmetric this.(OpenE2EE.privateKey)
         [this.(OpenE2EE.publicKey); Some receiver] key ;;
     resolve
       {| ShareItemOut.senderPublicKey := this.(OpenE2EE.publicKeyText);
          ShareItemOut.receiverEncryptedMessage :=
            writeEncryptedMessage newKey
              parts.(EncryptedParts.encryptedData) |}) w.
Proof.
  intros Hparts Hr Hkey. unfold OpenE2EE.share.
  erewrite bind_step by (unfold settle; rewrite Hparts; reflexivity).
  erewrite bind_step by (apply readPublicKey_inr; exact Hr).
  erewrite bind_step by exact Hkey.
  reflexivity.
Qed.

End OpeningFacts.

(* ================================================================== *)
(** * The claims *)

Import Symbolic SymbolicFacts.

Unset Implicit Arguments.

(** ** Who can open an envelope *)

Module SymbolicRecipients.

Lemma present_map_Some (ks : list nat) : present (map Some ks) = Some ks.
Proof. induction ks as [|k ks IH]; simpl; [|rewrite IH]; reflexivity. Qed.

#[export] Instance recipients : OpenPGPRecipients.
Proof.
  constructor; simpl.
  intros text message signer ids w armored w' receiver trusted
    Hm Hs He Hnot.
  injection Hm as <-.
  apply encrypt_keys_inr in He as [text' [ids' [Et [Hp [_ ->]]]]].
  injection Et as <-. rewrite present_map_Some in Hp. injection Hp as <-.
  exists (SignedFor (fst signer) ids (nativeEOL text)). split.
  - apply readMessage_armor_signed.
  - unfold decrypt_keys. destruct receiver as [k [protection|]];
      [reflexivity|].
    destruct (existsb (Nat.eqb k) ids) eqn:E; [|reflexivity].
    apply existsb_eqb_In in E. contradiction.
Qed.

End SymbolicRecipients.
Import SymbolicRecipients.

Section RecipientFacts.
Context `{OpenPGPRecipients} `{Models}.

(** A wrapped key is closed to a private key that is not among its
    recipients. *)
Lemma wrapped_key_closed (signer receiver : PGPPrivateKey)
  (recipients : list PGPPublicKey)
  (trusted : list (option PGPPublicKey)) (text armored : string)
  (w w' w2 : World) :
  isDecrypted signer = true ->
  PGPService.encryptAsymmetric (Some signer) (map Some recipients) text w
    = (inr armored, w') ->
  ~ In (toPublic receiver) recipients ->
  PGPService.decryptAsymmetric (Some receiver) trusted armored w2
  = (inl (Tagged "pgp.decryptAsymmetric" (Thrown DecryptionError)), w2).
Proof.
  intros Hs He Hnot.
  apply encryptAsymmetric_inr in He as [message [Hm He]].
  edestruct keys_not_recipient as [received [Hread Hdec]];
    [exact Hm | exact Hs | exact He | exact Hnot |].
  rewrite decryptAsymmetric_run, Hread, Hdec. reflexivity.
Qed.

End RecipientFacts.

(** The identities of the examples. *)
Lemma alice_ready : ready alice.
Proof. exists (0, None), 0. repeat split. Qed.

Lemma bob_ready : ready bob.
Proof. exists (1, None), 1. repeat split. Qed.

Lemma alice_built : built alice.
Proof.
  exists (OpenE2EE.constructor "alice" "correct horse"), 0, 1.
  reflexivity.
Qed.

Lemma bob_built : built bob.
Proof.
  exists (OpenE2EE.constructor "bob" "battery staple"), 1, 2.
  reflexivity.
Qed.

(** C1 (amended).  For every identity on which [build] has completed, or
    on which [load] has completed with the private and the public key of
    one key pair, and every plaintext: when [encrypt] returns a session
    key and an envelope, [decrypt] of that envelope with no external keys
    succeeds and returns that session key and the plaintext as the
    library gives a text literal back; that is the plaintext itself when,
    and only when, its text literal preserves it. *)
Theorem encrypt_decrypt_roundtrip `{OpenPGPContract} `{CodecContract}
  `{!SessionKeyContract}
  (this : OpenE2EE.t) (data : string)
  (w w' w2 : World) (item : MessageItemEncrypted.t) :
  built this \/ (loaded this /\ key_pair this) ->
  OpenE2EE.encrypt this data w = (inr item, w') ->
  OpenE2EE.decrypt this item.(MessageItemEncrypted.encryptedMessage) [] w2
  = (inr {| MessageItem.key := item.(MessageItemEncrypted.key);
            MessageItem.data := literalText data |}, w2) /\
  (OpenE2EE.decrypt this item.(MessageItemEncrypted.encryptedMessage) [] w2
   = (inr {| MessageItem.key := item.(MessageItemEncrypted.key);
             MessageItem.data := data |}, w2)
   <-> literalText data = data).
Proof.
  intros Hdone Henc.
  assert (ready this) as Hready by now apply complete_ready.
  pose proof (ready_roundtrip data w w2 Hready Henc) as Hround.
  split; [exact Hround|]. rewrite Hround. split.
  - intros E. now injection E.
  - intros Hdata. now rewrite Hdata.
Qed.

Lemma encrypt_decrypt_roundtrip_witness :
  built alice /\
  OpenE2EE.encrypt alice "hello" 5
  = (inr {| MessageItemEncrypted.key := "05";
            MessageItemEncrypted.encryptedMessage :=
              "9:A0:1:0:05Y2:05hello" |}, 8) /\
  OpenE2EE.decrypt alice "9:A0:1:0:05Y2:05hello" [] 8
  = (inr {| MessageItem.key := "05"; MessageItem.data := "hello" |}, 8).
Proof.
  assert (built alice) as Hb.
  { exists (OpenE2EE.constructor "alice" "correct horse"), 0, 1.
    reflexivity. }
  split; [exact Hb|]. split; [reflexivity|].
  refine (proj2 (proj2
    (encrypt_decrypt_roundtrip alice "hello" 5 8 8
       {| MessageItemEncrypted.key := "05";
          MessageItemEncrypted.encryptedMessage :=
            "9:A0:1:0:05Y2:05hello" |} _ _)) _).
  - left. exact Hb.
  - reflexivity.
  - reflexivity.
Defined.

(** The round trip does not hold for every identity that has completed
    [build] or [load] and every plaintext; it fails in two ways.  The
    identity [mallory] has completed [load], with the private key of one
    pair and the public key of another; what it encrypts it cannot
    decrypt.  And [alice], on which [build] has completed, encrypts two
    lines that a carriage return and a line feed separate, and reads back
    two lines that a line feed separates. *)
Lemma roundtrip_fails_or_alters_data :
  (loaded mallory /\
   OpenE2EE.encrypt mallory "hello" 5
   = (inr {| MessageItemEncrypted.key := "05";
             MessageItemEncrypted.encryptedMessage :=
               "9:A0:1:1:05Y2:05hello" |}, 8) /\
   OpenE2EE.decrypt mallory "9:A0:1:1:05Y2:05hello" [] 8
   = (inl (Tagged "pgp.decryptAsymmetric" (Thrown DecryptionError)), 8)) /\
  (built alice /\
   OpenE2EE.encrypt alice two_lines 5
   = (inr {| MessageItemEncrypted.key := "05";
             MessageItemEncrypted.encryptedMessage :=
               "9:A0:1:0:05Y2:05" ++ two_lines_read |}, 8) /\
   OpenE2EE.decrypt alice ("9:A0:1:0:05Y2:05" ++ two_lines_read) [] 8
   = (inr {| MessageItem.key := "05";
             MessageItem.data := two_lines_read |}, 8) /\
   two_lines_read <> two_lines).
Proof.
  split.
  - split; [|split; reflexivity].
    exists "S0:correct horse", "P1",
      (OpenE2EE.constructor "mallory" "correct horse"), 2, 2.
    reflexivity.
  - split; [|repeat split; discriminate].
    exists (OpenE2EE.constructor "alice" "correct horse"), 0, 1.
    reflexivity.
Qed.

(** C2 (amended).  For identities [A] (the sender) and [B] (the receiver)
    on each of which [build] has completed, or [load] with the two keys of
    one key pair, and every plaintext: when [A] has encrypted the
    plaintext and [share] of that envelope with the public key of [B]
    returns, [receive] by [B] with the public key of [A] succeeds on the
    shared envelope and returns the session key of [encrypt] and the
    plaintext as the library gives a text literal back; that is the
    plaintext itself when, and only when, its text literal preserves
    it. *)
Theorem share_receive_correct `{OpenPGPContract} `{CodecContract}
  `{!SessionKeyContract}
  (A B : OpenE2EE.t) (data : string) (w w1 w2 w3 w4 : World)
  (item : MessageItemEncrypted.t) (out : ShareItemOut.t) :
  built A \/ (loaded A /\ key_pair A) ->
  built B \/ (loaded B /\ key_pair B) ->
  OpenE2EE.encrypt A data w = (inr item, w1) ->
  OpenE2EE.share A B.(OpenE2EE.publicKeyText)
    item.(MessageItemEncrypted.encryptedMessage) w2 = (inr out, w3) ->
  OpenE2EE.receive B A.(OpenE2EE.publicKeyText)
    out.(ShareItemOut.receiverEncryptedMessage) w4
  = (inr {| MessageItem.key := item.(MessageItemEncrypted.key);
            MessageItem.data := literalText data |}, w4) /\
  (OpenE2EE.receive B A.(OpenE2EE.publicKeyText)
     out.(ShareItemOut.receiverEncryptedMessage) w4
   = (inr {| MessageItem.key := item.(MessageItemEncrypted.key);
             MessageItem.data := data |}, w4)
   <-> literalText data = data).
Proof.
  intros HA HB Henc Hshare.
  apply complete_ready in HA, HB.
  destruct HA as [skA [pkA [HskA [HpkA [HunA [HpairA HtextA]]]]]].
  destruct HB as [skB [pkB [HskB [HpkB [HunB [HpairB HtextB]]]]]].
  apply encrypt_inr_steps in Henc
    as [key [ek [ed [v1 [v2 [Hkey [Hwrap [Hdata ->]]]]]]]].
  apply generateEncryptionKey_literal in Hkey.
  apply share_inr_steps in Hshare
    as [parts [receiver [sharedKey [newKey
          [Hparts [Hr [Hopen [Hrewrap ->]]]]]]]].
  simpl in *. rewrite read_write in Hparts. injection Hparts as <-.
  simpl in *. rewrite HskA, HpkA in *.
  rewrite HtextB in Hr. injection Hr as <-.
  (* the sharer recovers the session key of [encrypt] *)
  assert (sharedKey = key) as ->.
  { assert (PGPService.decryptAsymmetric (Some skA) (map Some [pkA]) ek w2
            = (inr key, w2)) as Hopen'.
    { eapply wrapped_session_key_opens;
        [exact Hkey | exact HunA | exact Hwrap | exact HunA | ..];
        rewrite HpairA; simpl; auto. }
    simpl in Hopen'. rewrite Hopen' in Hopen. now injection Hopen. }
  assert (OpenE2EE.receive B A.(OpenE2EE.publicKeyText)
            (writeEncryptedMessage newKey ed) w4
          = (inr {| MessageItem.key := key;
                    MessageItem.data := literalText data |}, w4)) as Hrec.
  { eapply receive_opens.
    - exact HtextA.
    - apply read_write.
    - simpl. rewrite HskB, HpkB.
      change [Some pkB; Some pkA] with (map Some [pkB; pkA]).
      eapply wrapped_session_key_opens;
        [exact Hkey | exact HunA | exact Hrewrap | exact HunB | ..].
      + rewrite HpairB. simpl. auto.
      + rewrite HpairA. simpl. auto.
    - simpl. eapply encrypted_data_opens. exact Hdata. }
  split; [exact Hrec|]. rewrite Hrec. split.
  - intros E. now injection E.
  - intros Hlit. now rewrite Hlit.
Qed.

Lemma share_receive_correct_witness :
  OpenE2EE.share alice "P1" "9:A0:1:0:05Y2:05hello" 8
  = (inr {| ShareItemOut.senderPublicKey := "P0";
            ShareItemOut.receiverEncryptedMessage :=
              "11:A0:2:0:1:05Y2:05hello" |}, 9) /\
  OpenE2EE.receive bob "P0" "11:A0:2:0:1:05Y2:05hello" 9
  = (inr {| MessageItem.key := "05"; MessageItem.data := "hello" |}, 9).
Proof.
  split; [reflexivity|].
  refine (proj2 (proj2
    (share_receive_correct alice bob "hello" 5 8 8 9 9
       {| MessageItemEncrypted.key := "05";
          MessageItemEncrypted.encryptedMessage :=
            "9:A0:1:0:05Y2:05hello" |}
       {| ShareItemOut.senderPublicKey := "P0";
          ShareItemOut.receiverEncryptedMessage :=
            "11:A0:2:0:1:05Y2:05hello" |} _ _ _ _)) _).
  - left. exists (OpenE2EE.constructor "alice" "correct horse"), 0, 1.
    reflexivity.
  - left. exists (OpenE2EE.constructor "bob" "battery staple"), 1, 2.
    reflexivity.
  - reflexivity.
  - reflexivity.
  - reflexivity.
Defined.

(** Sharing does not work between every two identities that have
    completed [build] or [load] and for every plaintext; it fails in two
    ways.  The identity
    [bob2] has completed [load], with the private key of [bob] and the
    public key of [erin]; what [alice] shares with the public key [bob2]
    holds, [bob2] cannot receive.  And between [alice] and [bob], on both
    of which [build] has completed, two lines that a carriage return and
    a line feed separate arrive as two lines that a line feed
    separates. *)
Lemma share_receive_fails_or_alters_data :
  (loaded bob2 /\
   OpenE2EE.encrypt alice "hello" 5
   = (inr {| MessageItemEncrypted.key := "05";
             MessageItemEncrypted.encryptedMessage :=
               "9:A0:1:0:05Y2:05hello" |}, 8) /\
   OpenE2EE.share alice bob2.(OpenE2EE.publicKeyText)
     "9:A0:1:0:05Y2:05hello" 8
   = (inr {| ShareItemOut.senderPublicKey := "P0";
             ShareItemOut.receiverEncryptedMessage :=
               "11:A0:2:0:2:05Y2:05hello" |}, 9) /\
   OpenE2EE.receive bob2 alice.(OpenE2EE.publicKeyText)
     "11:A0:2:0:2:05Y2:05hello" 9
   = (inl (Tagged "pgp.decryptAsymmetric" (Thrown DecryptionError)), 9)) /\
  (built alice /\ built bob /\
   OpenE2EE.encrypt alice two_lines 5
   = (inr {| MessageItemEncrypted.key := "05";
             MessageItemEncrypted.encryptedMessage :=
               "9:A0:1:0:05Y2:05" ++ two_lines_read |}, 8) /\
   OpenE2EE.share alice bob.(OpenE2EE.publicKeyText)
     ("9:A0:1:0:05Y2:05" ++ two_lines_read) 8
   = (inr {| ShareItemOut.senderPublicKey := "P0";
             ShareItemOut.receiverEncryptedMessage :=
               "11:A0:2:0:1:05Y2:05" ++ two_lines_read |}, 9) /\
   OpenE2EE.receive bob alice.(OpenE2EE.publicKeyText)
     ("11:A0:2:0:1:05Y2:05" ++ two_lines_read) 9
   = (inr {| MessageItem.key := "05";
             MessageItem.data := two_lines_read |}, 9) /\
   two_lines_read <> two_lines).
Proof.
  split.
  - split; [|repeat split].
    exists "S1:battery staple", "P2",
      (OpenE2EE.constructor "bob" "battery staple"), 3, 3.
    reflexivity.
  - split; [|split]; [| |repeat split; discriminate].
    + exists (OpenE2EE.constructor "alice" "correct horse"), 0, 1.
      reflexivity.
    + exists (OpenE2EE.constructor "bob" "battery staple"), 1, 2.
      reflexivity.
Qed.

(** C3 (amended).  [receive] is [decrypt] with the sender as the one
    external key, and the trust set of that [decrypt] is the receiver's own
    public key together with the claimed sender.  For a ready identity and
    an envelope whose wrapped key was made for it and signed by some key:
    when the signer is neither the receiver itself nor the claimed sender,
    [receive] fails with [SignatureVerificationError]; when the signer is
    the receiver itself or the claimed sender, the signature is accepted
    and [receive] goes on to decrypt the data with the unwrapped key, which
    is the text literal of the text that was wrapped. *)
Theorem receive_trust_set `{OpenPGPContract} `{Models}
  (this : OpenE2EE.t) (senderPublicKey envelope : string)
  (sender : PGPPublicKey) (parts : EncryptedParts.t)
  (signer : PGPPrivateKey) (recipients : list (option PGPPublicKey))
  (text : string) (w w' w2 : World) :
  ready this ->
  openpgp_readKey senderPublicKey = inr sender ->
  readEncryptedMessage envelope = inr parts ->
  isDecrypted signer = true ->
  PGPService.encryptAsymmetric (Some signer) recipients text w
    = (inr parts.(EncryptedParts.encryptedKey), w') ->
  In this.(OpenE2EE.publicKey) recipients ->
  OpenE2EE.receive this senderPublicKey envelope
    = OpenE2EE.decrypt this envelope [senderPublicKey] /\
  (this.(OpenE2EE.publicKey) <> Some (toPublic signer) ->
   toPublic signer <> sender ->
   OpenE2EE.receive this senderPublicKey envelope w2
   = (inl (Tagged "pgp.decryptAsymmetric"
             (Thrown SignatureVerificationError)), w2)) /\
  (this.(OpenE2EE.publicKey) = Some (toPublic signer) \/
   toPublic signer = sender ->
   OpenE2EE.receive this senderPublicKey envelope w2
   = (data <- PGPService.decrypt (literalText text)
                parts.(EncryptedParts.encryptedData) ;;
      resolve {| MessageItem.key := literalText text;
                 MessageItem.data := data |}) w2).
Proof.
  intros [sk [pk [Hsk [Hpk [Hun [Hpair Htext]]]]]] Hs Hparts Hsig Hwrap Hin.
  split; [reflexivity|].
  assert (OpenE2EE.receive this senderPublicKey envelope w2
          = (key <-
               PGPService.decryptAsymmetric (Some sk)
                 (map Some [pk; sender])
                 parts.(EncryptedParts.encryptedKey) ;;
             data <-
               PGPService.decrypt key parts.(EncryptedParts.encryptedData) ;;
             resolve {| MessageItem.key := key; MessageItem.data := data |})
              w2) as Hrun.
  { unfold OpenE2EE.receive, OpenE2EE.decrypt.
    erewrite bind_step by (unfold settle; rewrite Hparts; reflexivity).
    erewrite bind_step
      by (apply Promise_all_one, readPublicKey_inr; exact Hs).
    rewrite Hsk, Hpk. reflexivity. }
  rewrite Hpk in Hin. rewrite <- Hpair in Hin.
  rewrite Hrun. split.
  - intros Hown Hother. apply bind_fail.
    eapply wrapped_key_refused; try eassumption.
    simpl. intros [E | [E | []]].
    + apply Hown. rewrite Hpk. now rewrite <- E.
    + apply Hother. now rewrite <- E.
  - intros Hor. erewrite bind_step; [reflexivity|].
    eapply wrapped_key_opens; try eassumption.
    simpl. destruct Hor as [E | E].
    + left. rewrite Hpk in E. now injection E.
    + right. left. now rewrite E.
Qed.

Lemma receive_trust_set_witness :
  OpenE2EE.receive bob "P0" "9:A7:1:1:05Y2:05hello" 8
  = (inl (Tagged "pgp.decryptAsymmetric"
            (Thrown SignatureVerificationError)), 8).
Proof.
  refine (proj1 (proj2
    (receive_trust_set bob "P0" "9:A7:1:1:05Y2:05hello" 0
       {| EncryptedParts.encryptedKey := "A7:1:1:05";
          EncryptedParts.encryptedData := "Y2:05hello" |}
       (7, None) [Some 1] "05" 3 4 8 _ _ _ _ _ _)) _ _).
  - exists (1, None), 1. repeat split.
  - reflexivity.
  - reflexivity.
  - reflexivity.
  - reflexivity.
  - simpl. now left.
  - discriminate.
  - discriminate.
Defined.

(** The wrapped key of the envelope [bob] makes with [encrypt] is signed
    with the key of [bob] (key 1); [receive] by [bob] with [alice] (key 0)
    as the claimed sender accepts it. *)
Lemma receive_accepts_own_signature :
  OpenE2EE.encrypt bob "hello" 5
  = (inr {| MessageItemEncrypted.key := "05";
            MessageItemEncrypted.encryptedMessage :=
              "9:A1:1:1:05Y2:05hello" |}, 8) /\
  openpgp_readMessage "A1:1:1:05" = inr (SignedFor 1 [1] "05") /\
  openpgp_readKey alice.(OpenE2EE.publicKeyText) = inr 0 /\
  OpenE2EE.receive bob alice.(OpenE2EE.publicKeyText)
    "9:A1:1:1:05Y2:05hello" 8
  = (inr {| MessageItem.key := "05"; MessageItem.data := "hello" |}, 8).
Proof. repeat split. Qed.

(** C4.  For every identity and every envelope it can open, and a receiver
    key that parses: [share] returns exactly when the library, given the
    session key of the input envelope as a text literal, the two
    encryption keys [this.publicKey] and the receiver, and
    [this.privateKey] as the signing key, returns a wrapped key; the
    envelope [share] returns packs that wrapped key with the encrypted
    data of the input envelope, unchanged.  When [build] or [load] has
    completed on the sharer, whichever keys were loaded, the new wrapped
    key opens with the private key that belongs to [this.publicKey] and
    with the private key of the receiver, under every trust set that
    holds the public key of [this.privateKey], to the text literal of the
    session key; under a trust set without that public key it is refused
    with [SignatureVerificationError]; and a private key that belongs
    neither to [this.publicKey] nor to the receiver is refused with
    [DecryptionError]. *)
Theorem share_keeps_encryptedData `{OpenPGPContract} `{CodecContract}
  `{!OpenPGPRecipients}
  (this : OpenE2EE.t) (receiverPublicKey envelope : string)
  (receiver : PGPPublicKey) (opened : MessageItem.t) (w0 w0' w : World) :
  OpenE2EE.decrypt this envelope [] w0 = (inr opened, w0') ->
  openpgp_readKey receiverPublicKey = inr receiver ->
  exists parts,
    readEncryptedMessage envelope = inr parts /\
    (forall out w',
        OpenE2EE.share this receiverPublicKey envelope w = (inr out, w') <->
        exists newKey message,
          openpgp_createMessage opened.(MessageItem.key) = inr message /\
          openpgp_encrypt_keys message
            [this.(OpenE2EE.publicKey); Some receiver]
            this.(OpenE2EE.privateKey) w = (inr newKey, w') /\
          out.(ShareItemOut.senderPublicKey)
            = this.(OpenE2EE.publicKeyText) /\
          out.(ShareItemOut.receiverEncryptedMessage)
            = writeEncryptedMessage newKey
                parts.(EncryptedParts.encryptedData) /\
          readEncryptedMessage out.(ShareItemOut.receiverEncryptedMessage)
            = inr {| EncryptedParts.encryptedKey := newKey;
                     EncryptedParts.encryptedData :=
                       parts.(EncryptedParts.encryptedData) |}) /\
    (built this \/ loaded this ->
     forall out w',
       OpenE2EE.share this receiverPublicKey envelope w = (inr out, w') ->
       exists sharer own newKey,
         this.(OpenE2EE.privateKey) = Some sharer /\
         this.(OpenE2EE.publicKey) = Some own /\
         readEncryptedMessage out.(ShareItemOut.receiverEncryptedMessage)
           = inr {| EncryptedParts.encryptedKey := newKey;
                    EncryptedParts.encryptedData :=
                      parts.(EncryptedParts.encryptedData) |} /\
         (forall reader trusted w2,
             isDecrypted reader = true ->
             toPublic reader = own \/ toPublic reader = receiver ->
             (In (toPublic sharer) trusted ->
              PGPService.decryptAsymmetric (Some reader) (map Some trusted)
                newKey w2
              = (inr (literalText opened.(MessageItem.key)), w2)) /\
             (~ In (toPublic sharer) trusted ->
              PGPService.decryptAsymmetric (Some reader) (map Some trusted)
                newKey w2
              = (inl (Tagged "pgp.decryptAsymmetric"
                        (Thrown SignatureVerificationError)), w2))) /\
         (forall reader trusted w2,
             toPublic reader <> own ->
             toPublic reader <> receiver ->
             PGPService.decryptAsymmetric (Some reader) trusted newKey w2
             = (inl (Tagged "pgp.decryptAsymmetric"
                       (Thrown DecryptionError)), w2))).
Proof.
  intros Hopen Hr.
  apply decrypt_inr_steps in Hopen as [parts [Hparts [Hkey [_ _]]]].
  exists parts. split; [exact Hparts|].
  assert (PGPService.decryptAsymmetric this.(OpenE2EE.privateKey)
            [this.(OpenE2EE.publicKey)]
            parts.(EncryptedParts.encryptedKey) w
          = (inr opened.(MessageItem.key), w)) as Hkey'.
  { rewrite decryptAsymmetric_run in Hkey |- *. now injection Hkey as ->. }
  pose proof (share_of_opened _ _ _ Hparts Hr Hkey') as Hshare.
  split.
  - intros out w'. rewrite Hshare. split.
    + intros E. apply bind_inr in E as [newKey [w1 [Hwrap E]]].
      unfold resolve in E. injection E as <- <-.
      apply encryptAsymmetric_inr in Hwrap as [message [Hm Hwrap]].
      exists newKey, message. simpl.
      repeat split; try assumption. apply read_write.
    + intros [newKey [message [Hm [Hwrap [Hs [He _]]]]]].
      assert (PGPService.encryptAsymmetric this.(OpenE2EE.privateKey)
                [this.(OpenE2EE.publicKey); Some receiver]
                opened.(MessageItem.key) w = (inr newKey, w')) as Hw.
      { apply encryptAsymmetric_inr. exists message. now split. }
      erewrite bind_step by exact Hw.
      unfold resolve. destruct out as [s e]. simpl in Hs, He. now subst.
  - intros Hdone out w' E.
    apply complete_keys in Hdone as [sk [pk [Hsk [Hpk Hun]]]].
    rewrite Hshare in E.
    apply bind_inr in E as [newKey [w1 [Hwrap E]]].
    unfold resolve in E. injection E as <- <-.
    rewrite Hsk, Hpk in Hwrap.
    change [Some pk; Some receiver]
      with (map Some [pk; receiver]) in Hwrap.
    exists sk, pk, newKey. simpl.
    split; [exact Hsk|]. split; [exact Hpk|].
    split; [apply read_write|]. split.
    + intros reader trusted w2 Hreader Hor.
      assert (In (Some (toPublic reader))
                (map Some [pk; receiver])) as Hin.
      { simpl. destruct Hor as [-> | ->]; auto. }
      split; intros Htrust.
      * eapply wrapped_key_opens;
          [exact Hun | exact Hwrap | exact Hreader | exact Hin
          | exact Htrust].
      * eapply wrapped_key_refused;
          [exact Hun | exact Hwrap | exact Hreader | exact Hin
          | exact Htrust].
    + intros reader trusted w2 Hns Hnr.
      eapply wrapped_key_closed; [exact Hun | exact Hwrap |].
      simpl. intros [E | [E | []]]; [now apply Hns | now apply Hnr].
Qed.

Lemma share_keeps_encryptedData_witness :
  OpenE2EE.share alice "P1" "9:A0:1:0:05Y2:05hello" 8
  = (inr {| ShareItemOut.senderPublicKey := "P0";
            ShareItemOut.receiverEncryptedMessage :=
              "11:A0:2:0:1:05Y2:05hello" |}, 9) /\
  (exists message,
      openpgp_createMessage "05" = inr message /\
      openpgp_encrypt_keys message [Some 0; Some 1] (Some (0, None)) 8
      = (inr "A0:2:0:1:05", 9) /\
      readEncryptedMessage "11:A0:2:0:1:05Y2:05hello"
      = inr {| EncryptedParts.encryptedKey := "A0:2:0:1:05";
               EncryptedParts.encryptedData := "Y2:05hello" |}) /\
  PGPService.decryptAsymmetric (Some (1, None)) [Some 0] "A0:2:0:1:05" 9
  = (inr "05", 9) /\
  PGPService.decryptAsymmetric (Some (1, None)) [Some 1] "A0:2:0:1:05" 9
  = (inl (Tagged "pgp.decryptAsymmetric"
            (Thrown SignatureVerificationError)), 9) /\
  PGPService.decryptAsymmetric (Some (2, None)) [Some 0] "A0:2:0:1:05" 9
  = (inl (Tagged "pgp.decryptAsymmetric" (Thrown DecryptionError)), 9).
Proof.
  assert (OpenE2EE.share alice "P1" "9:A0:1:0:05Y2:05hello" 8
          = (inr {| ShareItemOut.senderPublicKey := "P0";
                    ShareItemOut.receiverEncryptedMessage :=
                      "11:A0:2:0:1:05Y2:05hello" |}, 9)) as Hshare
    by reflexivity.
  split; [exact Hshare|].
  destruct (share_keeps_encryptedData alice "P1" "9:A0:1:0:05Y2:05hello" 1
              {| MessageItem.key := "05"; MessageItem.data := "hello" |}
              8 8 8)
    as [parts [Hparts [Hiff Hsem]]]; [reflexivity | reflexivity |].
  split.
  - destruct (proj1 (Hiff _ _) Hshare)
      as [newKey [message [Hm [Hwrap [_ [Hout Hread]]]]]].
    simpl in Hwrap, Hout, Hread.
    assert (newKey = "A0:2:0:1:05") as ->.
    { simpl in Hm. injection Hm as <-. vm_compute in Hwrap.
      now injection Hwrap. }
    exists message. repeat split; assumption.
  - destruct (Hsem (or_introl alice_built) _ _ Hshare)
      as [sharer [own [newKey [Hsk [Hpk [Hread [Hopens Hclosed]]]]]]].
    vm_compute in Hsk, Hpk, Hread.
    injection Hsk as <-. injection Hpk as <-. injection Hread as <- _.
    split; [|split].
    + apply (proj1 (Hopens (1, None) [0] 9 eq_refl (or_intror eq_refl))).
      simpl. auto.
    + apply (proj2 (Hopens (1, None) [1] 9 eq_refl (or_intror eq_refl))).
      simpl. intros [E | []]. discriminate.
    + apply (Hclosed (2, None) [Some 0] 9); discriminate.
Defined.

(** C5 (amended).  For identities [A] and [B] on each of which [build] has
    completed, or [load] with the two keys of one key pair, and every
    plaintext, when [shareNew] by [A] with the public key of [B] returns:
    it has performed [encrypt] of the plaintext, and had the library
    encrypt the session key of that [encrypt] again, for the receiver
    alone and signed with the private key of [A]; the sender's envelope is
    the envelope of [encrypt]; the two envelopes hold the same encrypted
    data; [decrypt] by [A] of the sender's envelope and [receive] by [B],
    with the public key of [A], of the receiver's envelope both return the
    session key and the plaintext as the library gives a text literal
    back, which is the plaintext itself when its text literal preserves
    it. *)
Theorem shareNew_correct `{OpenPGPContract} `{CodecContract}
  `{!SessionKeyContract}
  (A B : OpenE2EE.t) (data : string) (w w' : World)
  (out : ShareNewItemOut.t) :
  built A \/ (loaded A /\ key_pair A) ->
  built B \/ (loaded B /\ key_pair B) ->
  OpenE2EE.shareNew A B.(OpenE2EE.publicKeyText) data w = (inr out, w') ->
  exists item w1 newKey message ownKey encryptedData,
    OpenE2EE.encrypt A data w = (inr item, w1) /\
    openpgp_createMessage item.(MessageItemEncrypted.key) = inr message /\
    openpgp_encrypt_keys message [B.(OpenE2EE.publicKey)]
      A.(OpenE2EE.privateKey) w1 = (inr newKey, w') /\
    out.(ShareNewItemOut.senderEncryptedMessage)
      = item.(MessageItemEncrypted.encryptedMessage) /\
    readEncryptedMessage out.(ShareNewItemOut.senderEncryptedMessage)
      = inr {| EncryptedParts.encryptedKey := ownKey;
               EncryptedParts.encryptedData := encryptedData |} /\
    readEncryptedMessage out.(ShareNewItemOut.receiverEncryptedMessage)
      = inr {| EncryptedParts.encryptedKey := newKey;
               EncryptedParts.encryptedData := encryptedData |} /\
    forall w2,
      OpenE2EE.decrypt A out.(ShareNewItemOut.senderEncryptedMessage) [] w2
      = (inr {| MessageItem.key := item.(MessageItemEncrypted.key);
                MessageItem.data := literalText data |}, w2) /\
      OpenE2EE.receive B A.(OpenE2EE.publicKeyText)
        out.(ShareNewItemOut.receiverEncryptedMessage) w2
      = (inr {| MessageItem.key := item.(MessageItemEncrypted.key);
                MessageItem.data := literalText data |}, w2).
Proof.
  intros HA HB Hnew.
  apply complete_ready in HA, HB.
  apply shareNew_inr_steps in Hnew
    as [receiver [item [w1 [newKey [parts
          [Hr [Henc [Hrewrap [Hparts ->]]]]]]]]].
  pose proof (fun w2 => ready_roundtrip data w w2 HA Henc) as Hround.
  destruct HA as [skA [pkA [HskA [HpkA [HunA [HpairA HtextA]]]]]].
  destruct HB as [skB [pkB [HskB [HpkB [HunB [HpairB HtextB]]]]]].
  rewrite HtextB in Hr. injection Hr as <-.
  pose proof Henc as Hitem.
  apply encrypt_inr_steps in Hitem
    as [key [ek [ed [v1 [v2 [Hkey [Hwrap [Hdata Hitem]]]]]]]].
  apply generateEncryptionKey_literal in Hkey.
  subst item. simpl in *.
  rewrite read_write in Hparts. injection Hparts as <-. simpl in *.
  pose proof Hrewrap as Hlib.
  apply encryptAsymmetric_inr in Hlib as [message [Hm Hlib]].
  rewrite HskA in Hrewrap.
  eexists _, w1, newKey, message, ek, ed.
  split; [exact Henc|].
  revert Hround. simpl. intros Hround.
  rewrite HpkB.
  repeat split; try apply read_write; try assumption.
  - apply Hround.
  - eapply receive_opens.
    + exact HtextA.
    + apply read_write.
    + simpl. rewrite HskB, HpkB.
      change [Some pkB; Some pkA] with (map Some [pkB; pkA]).
      eapply wrapped_session_key_opens;
        [exact Hkey | exact HunA | exact Hrewrap | exact HunB | ..].
      * rewrite HpairB. simpl. auto.
      * rewrite HpairA. simpl. auto.
    + simpl. eapply encrypted_data_opens. exact Hdata.
Qed.

Lemma shareNew_correct_witness :
  OpenE2EE.shareNew alice "P1" "hello" 5
  = (inr {| ShareNewItemOut.senderPublicKey := "P0";
            ShareNewItemOut.senderEncryptedMessage :=
              "9:A0:1:0:05Y2:05hello";
            ShareNewItemOut.receiverEncryptedMessage :=
              "9:A0:1:1:05Y2:05hello" |}, 9) /\
  OpenE2EE.decrypt alice "9:A0:1:0:05Y2:05hello" [] 9
  = (inr {| MessageItem.key := "05"; MessageItem.data := "hello" |}, 9) /\
  OpenE2EE.receive bob "P0" "9:A0:1:1:05Y2:05hello" 9
  = (inr {| MessageItem.key := "05"; MessageItem.data := "hello" |}, 9).
Proof.
  assert (OpenE2EE.shareNew alice bob.(OpenE2EE.publicKeyText) "hello" 5
          = (inr {| ShareNewItemOut.senderPublicKey := "P0";
                    ShareNewItemOut.senderEncryptedMessage :=
                      "9:A0:1:0:05Y2:05hello";
                    ShareNewItemOut.receiverEncryptedMessage :=
                      "9:A0:1:1:05Y2:05hello" |}, 9)) as Hnew
    by reflexivity.
  split; [exact Hnew|].
  destruct (shareNew_correct alice bob "hello" 5 9 _
              (or_introl alice_built) (or_introl bob_built) Hnew)
    as [item [w1 [newKey [message [ownKey [ed
          [Henc [_ [_ [_ [_ [_ Hboth]]]]]]]]]]]].
  vm_compute in Henc. injection Henc as <- _.
  exact (Hboth 9).
Defined.

(** [shareNew] does not work between every two identities that have
    completed [build] or [load] and for every plaintext; it fails in two
    ways.  The identity
    [mallory] has completed [load], with the private key of [alice] and
    the public key of [bob]; [shareNew] by [mallory] returns, and
    [mallory] cannot decrypt the sender's envelope.  And between [alice]
    and [bob], on both of which [build] has completed, two lines that a
    carriage return and a line feed separate are read back, by both, as
    two lines that a line feed separates. *)
Lemma shareNew_fails_or_alters_data :
  (loaded mallory /\
   OpenE2EE.shareNew mallory erin.(OpenE2EE.publicKeyText) "hello" 5
   = (inr {| ShareNewItemOut.senderPublicKey := "P1";
             ShareNewItemOut.senderEncryptedMessage :=
               "9:A0:1:1:05Y2:05hello";
             ShareNewItemOut.receiverEncryptedMessage :=
               "9:A0:1:2:05Y2:05hello" |}, 9) /\
   OpenE2EE.decrypt mallory "9:A0:1:1:05Y2:05hello" [] 9
   = (inl (Tagged "pgp.decryptAsymmetric" (Thrown DecryptionError)), 9)) /\
  (built alice /\ built bob /\
   OpenE2EE.shareNew alice bob.(OpenE2EE.publicKeyText) two_lines 5
   = (inr {| ShareNewItemOut.senderPublicKey := "P0";
             ShareNewItemOut.senderEncryptedMessage :=
               "9:A0:1:0:05Y2:05" ++ two_lines_read;
             ShareNewItemOut.receiverEncryptedMessage :=
               "9:A0:1:1:05Y2:05" ++ two_lines_read |}, 9) /\
   OpenE2EE.decrypt alice ("9:A0:1:0:05Y2:05" ++ two_lines_read) [] 9
   = (inr {| MessageItem.key := "05";
             MessageItem.data := two_lines_read |}, 9) /\
   OpenE2EE.receive bob alice.(OpenE2EE.publicKeyText)
     ("9:A0:1:1:05Y2:05" ++ two_lines_read) 9
   = (inr {| MessageItem.key := "05";
             MessageItem.data := two_lines_read |}, 9) /\
   two_lines_read <> two_lines).
Proof.
  split.
  - split; [|repeat split].
    exists "S0:correct horse", "P1",
      (OpenE2EE.constructor "mallory" "correct horse"), 2, 2.
    reflexivity.
  - split; [|split]; [| |repeat split; discriminate].
    + exists (OpenE2EE.constructor "alice" "correct horse"), 0, 1.
      reflexivity.
    + exists (OpenE2EE.constructor "bob" "battery staple"), 1, 2.
      reflexivity.
Qed.

(** C6 (amended).  The class makes no check of readiness: on an identity
    on which neither [build] nor [load] has completed, [encrypt],
    [decrypt], [share], [shareNew] and [receive] hand the absent key
    handles to the service.  With a library that refuses an absent handle,
    each of these calls fails, and the failure is the failure of a service
    operation, tagged with the name of that operation, or the failure of
    the envelope codec on the envelope that was passed. *)
Theorem unready_operations_fail `{OpenPGPContract} `{Models}
  (this : OpenE2EE.t) :
  uninitialised this ->
  (forall data w, exists e w',
      OpenE2EE.encrypt this data w = (inl e, w') /\
      tagged_by
        ["pgp.generateEncryptionKey"; "pgp.encryptAsymmetric"; "pgp.encrypt"]
        e) /\
  (forall envelope external w, exists e w',
      OpenE2EE.decrypt this envelope external w = (inl e, w') /\
      (readEncryptedMessage envelope = inl e \/
       tagged_by
         ["pgp.readPublicKey"; "pgp.decryptAsymmetric"; "pgp.decrypt"] e)) /\
  (forall receiverPublicKey envelope w, exists e w',
      OpenE2EE.share this receiverPublicKey envelope w = (inl e, w') /\
      (readEncryptedMessage envelope = inl e \/
       tagged_by
         ["pgp.readPublicKey"; "pgp.decryptAsymmetric";
          "pgp.encryptAsymmetric"] e)) /\
  (forall receiverPublicKey data w, exists e w',
      OpenE2EE.shareNew this receiverPublicKey data w = (inl e, w') /\
      tagged_by
        ["pgp.readPublicKey"; "pgp.generateEncryptionKey";
         "pgp.encryptAsymmetric"; "pgp.encrypt"] e) /\
  (forall senderPublicKey envelope w, exists e w',
      OpenE2EE.receive this senderPublicKey envelope w = (inl e, w') /\
      (readEncryptedMessage envelope = inl e \/
       tagged_by
         ["pgp.readPublicKey"; "pgp.decryptAsymmetric"; "pgp.decrypt"] e)).
Proof.
  intros Hnew. apply uninitialised_unready in Hnew as Hun. repeat split.
  - intros data w.
    destruct (unready_encrypt_fails data w Hun) as [e [w' E]].
    exists e, w'. split; [exact E|]. eapply encrypt_inl_origin. exact E.
  - intros envelope external w.
    destruct (unready_decrypt_fails envelope external w Hun)
      as [e [w' E]].
    exists e, w'. split; [exact E|]. eapply decrypt_inl_origin. exact E.
  - intros receiverPublicKey envelope w.
    destruct (unready_share_fails receiverPublicKey envelope w Hun)
      as [e [w' E]].
    exists e, w'. split; [exact E|]. eapply share_inl_origin. exact E.
  - intros receiverPublicKey data w.
    apply unready_shareNew_fails. exact Hun.
  - intros senderPublicKey envelope w. unfold OpenE2EE.receive.
    destruct (unready_decrypt_fails envelope [senderPublicKey] w Hun)
      as [e [w' E]].
    exists e, w'. split; [exact E|]. eapply decrypt_inl_origin. exact E.
Qed.

Lemma unready_operations_fail_witness :
  uninitialised carol /\
  exists e w',
    OpenE2EE.encrypt carol "hello" 5 = (inl e, w') /\
    tagged_by
      ["pgp.generateEncryptionKey"; "pgp.encryptAsymmetric"; "pgp.encrypt"]
      e.
Proof.
  assert (uninitialised carol) as Hun by apply uninitialised_new.
  split; [exact Hun|].
  exact (proj1 (unready_operations_fail carol Hun) "hello" 5).
Defined.

(** On the identity [carol], on which neither [build] nor [load] has run,
    [encrypt] calls the service with the absent handles, and the failure is
    the encryption failure of the library, not a state error; [decrypt] of
    a string that is not an envelope fails in the codec, before a key
    handle is used. *)
Lemma unready_failure_is_not_a_state_error :
  uninitialised carol /\
  OpenE2EE.encrypt carol "hello" 5
  = (inl (Tagged "pgp.encryptAsymmetric" (Thrown EncryptionError)), 7) /\
  is_state_error (Tagged "pgp.encryptAsymmetric" (Thrown EncryptionError))
  = false /\
  OpenE2EE.decrypt carol "hello" [] 5
  = (inl (Thrown EnvelopeFormatError), 5) /\
  is_state_error (Thrown EnvelopeFormatError) = false.
Proof. split; [apply uninitialised_new | repeat split]. Qed.

(** C7 (amended).  For an identity constructed with passphrase [p] and an
    armoured private key protected by a passphrase different from [p],
    [load] fails and assigns nothing: the key handles stay absent, and no
    later [encrypt], [decrypt], [share], [shareNew] or [receive] returns a
    value.  When the armoured public key is well formed, the failure is the
    [AuthenticationError] of [pgp.decryptPrivateKey]. *)
Theorem load_wrong_passphrase `{OpenPGPContract} `{Models}
  (userId p q encryptedPrivateKey publicKey : string)
  (locked sk : PGPPrivateKey) (w : World) :
  openpgp_readPrivateKey encryptedPrivateKey = inr locked ->
  openpgp_decryptKey locked q = inr sk ->
  p <> q ->
  (exists e,
     OpenE2EE.load encryptedPrivateKey publicKey
       (OpenE2EE.constructor userId p) w
     = (inl e, OpenE2EE.constructor userId p, w) /\
     forall pk,
       openpgp_readKey publicKey = inr pk ->
       e = Tagged "pgp.decryptPrivateKey" (Thrown AuthenticationError)) /\
  unready (OpenE2EE.constructor userId p) /\
  (forall data w2, exists e w3,
      OpenE2EE.encrypt (OpenE2EE.constructor userId p) data w2
      = (inl e, w3)) /\
  (forall envelope external w2, exists e w3,
      OpenE2EE.decrypt (OpenE2EE.constructor userId p) envelope external w2
      = (inl e, w3)) /\
  (forall receiverPublicKey envelope w2, exists e w3,
      OpenE2EE.share (OpenE2EE.constructor userId p)
        receiverPublicKey envelope w2 = (inl e, w3)) /\
  (forall receiverPublicKey data w2, exists e w3,
      OpenE2EE.shareNew (OpenE2EE.constructor userId p)
        receiverPublicKey data w2 = (inl e, w3)) /\
  (forall senderPublicKey envelope w2, exists e w3,
      OpenE2EE.receive (OpenE2EE.constructor userId p)
        senderPublicKey envelope w2 = (inl e, w3)).
Proof.
  intros Hlocked Hq Hneq.
  assert (unready (OpenE2EE.constructor userId p)) as Hun
    by (split; reflexivity).
  split; [|split; [exact Hun|]].
  - unfold OpenE2EE.load, Promise_all2.
    rewrite decryptPrivateKey_run, readPublicKey_run, Hlocked. simpl.
    erewrite decryptKey_wrong_passphrase by eassumption. simpl.
    destruct (openpgp_readKey publicKey) as [e|pk]; simpl.
    + eexists. split; [reflexivity|]. intros pk E. discriminate.
    + eexists. split; [reflexivity|]. reflexivity.
  - repeat split.
    + intros. now apply unready_encrypt_fails.
    + intros. now apply unready_decrypt_fails.
    + intros. now apply unready_share_fails.
    + intros receiverPublicKey data w2.
      destruct (unready_shareNew_fails receiverPublicKey data w2 Hun)
        as [e [w3 [E _]]].
      now exists e, w3.
    + intros. now apply unready_decrypt_fails.
Qed.

Lemma load_wrong_passphrase_witness :
  OpenE2EE.load "S0:correct horse" "P0" (OpenE2EE.constructor "dave" "wrong") 1
  = (inl (Tagged "pgp.decryptPrivateKey" (Thrown AuthenticationError)),
     OpenE2EE.constructor "dave" "wrong", 1).
Proof.
  assert (openpgp_readPrivateKey "S0:correct horse"
          = inr (0, Some "correct horse")) as Hlocked by reflexivity.
  assert (openpgp_decryptKey (0, Some "correct horse") "correct horse"
          = inr (0, None)) as Hq by reflexivity.
  assert ("wrong" <> "correct horse") as Hneq by discriminate.
  destruct (@load_wrong_passphrase runtime pgp contract models
              "dave" "wrong" "correct horse" "S0:correct horse" "P0"
              (0, Some "correct horse") (0, None) 1
              Hlocked Hq Hneq) as [[e [Hload Hkind]] _].
  rewrite Hload. now rewrite (Hkind 0 eq_refl).
Defined.

(** The private key is protected by a passphrase other than the one of the
    identity and the armoured public key is malformed: both steps of
    [load] reject, and in world 1 the rejection of [pgp.readPublicKey] is
    the first, so [load] fails with a [KeyParseError]. *)
Lemma load_reports_malformed_public_key :
  openpgp_readPrivateKey "S0:correct horse"
    = inr (0, Some "correct horse") /\
  openpgp_decryptKey (0, Some "correct horse") "correct horse"
    = inr (0, None) /\
  OpenE2EE.load "S0:correct horse" "garbage"
    (OpenE2EE.constructor "dave" "wrong") 1
  = (inl (Tagged "pgp.readPublicKey" (Thrown KeyParseError)),
     OpenE2EE.constructor "dave" "wrong", 1).
Proof. repeat split. Qed.

(** C8.  For all strings [a] and [b], whatever characters they contain,
    reading the envelope written from [a] and [b] gives [a] and [b] back
    (on the length-prefixed codec). *)
Theorem read_write_roundtrip (a b : string) :
  EnvelopeCodec.readEncryptedMessage
    (EnvelopeCodec.writeEncryptedMessage a b)
  = inr {| EncryptedParts.encryptedKey := a;
           EncryptedParts.encryptedData := b |}.
Proof.
  unfold EnvelopeCodec.readEncryptedMessage,
    EnvelopeCodec.writeEncryptedMessage.
  now rewrite EnvelopeCodecFacts.get_put_field.
Qed.

(** Blobs that contain the colon and digits of the length prefix. *)
Example read_write_delimiters :
  EnvelopeCodec.writeEncryptedMessage "3:ab" ":7:" = "4:3:ab:7:" /\
  EnvelopeCodec.readEncryptedMessage "4:3:ab:7:"
  = inr {| EncryptedParts.encryptedKey := "3:ab";
           EncryptedParts.encryptedData := ":7:" |}.
Proof. split; reflexivity. Qed.





(** C10.  [exportMasterKeys] on an identity on which neither [build] nor
    [load] has completed does not fail: it fulfils with the two empty
    strings the fields were initialised with. *)
Theorem exportMasterKeys_before_build `{OpenPGP} `{Models}
  (this : OpenE2EE.t) (w : World) :
  uninitialised this ->
  OpenE2EE.exportMasterKeys this w
  = (inr {| MasterKeys.privateKey := ""; MasterKeys.publicKey := "" |}, w).
Proof.
  intros Hun. apply uninitialised_constructor in Hun as [u [p ->]].
  reflexivity.
Qed.

(** After a [load] that failed, [exportMasterKeys] still returns the two
    empty strings. *)
Lemma exportMasterKeys_before_build_witness :
  OpenE2EE.load "S0:correct horse" "P0"
    (OpenE2EE.constructor "dave" "wrong") 1
  = (inl (Tagged "pgp.decryptPrivateKey" (Thrown AuthenticationError)),
     OpenE2EE.constructor "dave" "wrong", 1) /\
  OpenE2EE.exportMasterKeys (OpenE2EE.constructor "dave" "wrong") 1
  = (inr {| MasterKeys.privateKey := ""; MasterKeys.publicKey := "" |}, 1).
Proof.
  assert (OpenE2EE.load "S0:correct horse" "P0"
            (OpenE2EE.constructor "dave" "wrong") 1
          = (inl (Tagged "pgp.decryptPrivateKey"
                    (Thrown AuthenticationError)),
             OpenE2EE.constructor "dave" "wrong", 1)) as Hload
    by reflexivity.
  split; [exact Hload|].
  apply (@exportMasterKeys_before_build runtime pgp models
           (OpenE2EE.constructor "dave" "wrong") 1).
  eapply uninitialised_load; [apply uninitialised_new | exact Hload].
Defined.

(* ================================================================== *)
(** * Further properties of the class *)

(** ** The life cycle of the keys *)

Section LifeCycleFacts.
Context `{OpenPGP} `{Models}.

(** What a completed [build] or [load] has installed: handles that the
    two texts it stores yield again, under the passphrase it keeps. *)
Lemma completed_keys (this : OpenE2EE.t) :
  built this \/ loaded this ->
  exists sk pk,
    this.(OpenE2EE.privateKey) = Some sk /\
    this.(OpenE2EE.publicKey) = Some pk /\
    (forall w,
        PGPService.decryptPrivateKey this.(OpenE2EE.privateKeyEncryptedText)
          this.(OpenE2EE.passphrase) w = (inr sk, w)) /\
    openpgp_readKey this.(OpenE2EE.publicKeyText) = inr pk.
Proof.
  intros [[this0 [w0 [w1 Hb]]] | [a [b [this0 [w0 [w1 Hl]]]]]].
  - apply build_inr_steps in Hb as [a [b [sk [pk [_ [Hsk [Hpk ->]]]]]]].
    exists sk, pk. simpl. repeat split; try assumption.
    intros w. rewrite decryptPrivateKey_run in Hsk |- *.
    now injection Hsk as ->.
  - apply load_inr_steps in Hl as [sk [pk [Hsk [Hpk ->]]]].
    exists sk, pk. simpl. repeat split; try assumption.
    intros w. rewrite decryptPrivateKey_run in Hsk |- *.
    now injection Hsk as ->.
Qed.

Lemma load_steps_inr (a b : string) (this : OpenE2EE.t) (w : World)
  (sk : PGPPrivateKey) (pk : PGPPublicKey) :
  PGPService.decryptPrivateKey a this.(OpenE2EE.passphrase) w = (inr sk, w) ->
  openpgp_readKey b = inr pk ->
  OpenE2EE.load a b this w
  = (inr tt, OpenE2EE.assign_keys this sk pk a b, w).
Proof.
  intros Hsk Hpk. unfold OpenE2EE.load, Promise_all2.
  rewrite Hsk, readPublicKey_run, Hpk. reflexivity.
Qed.

End LifeCycleFacts.

(** X1.  When [build] completes, [exportMasterKeys] returns the armoured
    pair that [pgp.generateKeyPair] produced, the passphrase and the user
    id are as they were, and the identity is ready. *)
Theorem build_installs_generated_pair `{OpenPGPContract} `{Models}
  (this this' : OpenE2EE.t) (w w' w2 : World) :
  OpenE2EE.build this w = (inr tt, this', w') ->
  exists privateKey publicKey,
    PGPService.generateKeyPair this.(OpenE2EE.passphrase)
      this.(OpenE2EE.userId) w = (inr (privateKey, publicKey), w') /\
    OpenE2EE.exportMasterKeys this' w2
    = (inr {| MasterKeys.privateKey := privateKey;
              MasterKeys.publicKey := publicKey |}, w2) /\
    this'.(OpenE2EE.passphrase) = this.(OpenE2EE.passphrase) /\
    this'.(OpenE2EE.userId) = this.(OpenE2EE.userId) /\
    ready this'.
Proof.
  intros Hb.
  assert (ready this') as Hready.
  { apply built_ready. now exists this, w, w'. }
  apply build_inr_steps in Hb as [a [b [sk [pk [Hgen [_ [_ ->]]]]]]].
  exists a, b. repeat split; assumption.
Qed.

Lemma build_installs_generated_pair_witness :
  exists privateKey publicKey,
    PGPService.generateKeyPair "correct horse" "alice" 0
      = (inr (privateKey, publicKey), 1) /\
    OpenE2EE.exportMasterKeys alice 7
    = (inr {| MasterKeys.privateKey := privateKey;
              MasterKeys.publicKey := publicKey |}, 7) /\
    alice.(OpenE2EE.passphrase) = "correct horse" /\
    alice.(OpenE2EE.userId) = "alice" /\
    ready alice.
Proof.
  apply (build_installs_generated_pair
           (OpenE2EE.constructor "alice" "correct horse") alice 0 1 7).
  reflexivity.
Defined.

(** X2.  The keys an identity exports after [build] or [load] has
    completed can be loaded into any identity that has the same
    passphrase: that [load] completes, draws nothing from the world, and
    installs the same two handles and the same two texts; the user id and
    the passphrase of the loading identity stay. *)
Theorem load_exported_keys `{OpenPGP} `{Models}
  (this other : OpenE2EE.t) (keys : MasterKeys.t) (w1 w1' w2 : World) :
  built this \/ loaded this ->
  other.(OpenE2EE.passphrase) = this.(OpenE2EE.passphrase) ->
  OpenE2EE.exportMasterKeys this w1 = (inr keys, w1') ->
  exists other',
    OpenE2EE.load keys.(MasterKeys.privateKey) keys.(MasterKeys.publicKey)
      other w2 = (inr tt, other', w2) /\
    other'.(OpenE2EE.privateKey) = this.(OpenE2EE.privateKey) /\
    other'.(OpenE2EE.publicKey) = this.(OpenE2EE.publicKey) /\
    other'.(OpenE2EE.privateKeyEncryptedText)
      = this.(OpenE2EE.privateKeyEncryptedText) /\
    other'.(OpenE2EE.publicKeyText) = this.(OpenE2EE.publicKeyText) /\
    other'.(OpenE2EE.userId) = other.(OpenE2EE.userId) /\
    other'.(OpenE2EE.passphrase) = other.(OpenE2EE.passphrase).
Proof.
  intros Hdone Hpass Hexp.
  destruct (completed_keys this Hdone) as [sk [pk [Hsk [Hpk [Hdec Hread]]]]].
  unfold OpenE2EE.exportMasterKeys, resolve in Hexp.
  injection Hexp as <- _. simpl.
  eexists. split.
  - apply load_steps_inr; [rewrite Hpass; apply Hdec | exact Hread].
  - simpl. rewrite Hsk, Hpk. repeat split.
Qed.

Lemma load_exported_keys_witness :
  exists other',
    OpenE2EE.load "S0:correct horse" "P0"
      (OpenE2EE.constructor "alice at home" "correct horse") 9
    = (inr tt, other', 9) /\
    other'.(OpenE2EE.privateKey) = alice.(OpenE2EE.privateKey) /\
    other'.(OpenE2EE.publicKey) = alice.(OpenE2EE.publicKey) /\
    other'.(OpenE2EE.privateKeyEncryptedText)
      = alice.(OpenE2EE.privateKeyEncryptedText) /\
    other'.(OpenE2EE.publicKeyText) = alice.(OpenE2EE.publicKeyText) /\
    other'.(OpenE2EE.userId) = "alice at home" /\
    other'.(OpenE2EE.passphrase) = "correct horse".
Proof.
  apply (load_exported_keys alice
           (OpenE2EE.constructor "alice at home" "correct horse")
           {| MasterKeys.privateKey := "S0:correct horse";
              MasterKeys.publicKey := "P0" |} 4 4 9).
  - left. exists (OpenE2EE.constructor "alice" "correct horse"), 0, 1.
    reflexivity.
  - reflexivity.
  - reflexivity.
Defined.

(** X3.  A call of [load] or of [build] that fails assigns nothing,
    whatever the state of the identity: the fields are as before the call,
    so an identity that was ready is still ready; a failed [load] has
    drawn nothing from the world. *)
Theorem failed_load_or_build_keeps_state `{OpenPGP} `{Models}
  (this this' : OpenE2EE.t) (w w' : World) (e : Failure) :
  (forall encryptedPrivateKey publicKey,
      OpenE2EE.load encryptedPrivateKey publicKey this w = (inl e, this', w') ->
      this' = this /\ w' = w /\ (ready this -> ready this')) /\
  (OpenE2EE.build this w = (inl e, this', w') ->
   this' = this /\ (ready this -> ready this')).
Proof.
  split.
  - intros a b Hl. apply load_inl_steps in Hl as [-> [-> _]]. auto.
  - intros Hb. apply build_inl_steps in Hb as [-> _]. auto.
Qed.

Lemma failed_load_or_build_keeps_state_witness :
  OpenE2EE.load "S1:battery staple" "P1" alice 3
  = (inl (Tagged "pgp.decryptPrivateKey" (Thrown AuthenticationError)),
     alice, 3) /\
  ready alice.
Proof.
  assert (OpenE2EE.load "S1:battery staple" "P1" alice 3
          = (inl (Tagged "pgp.decryptPrivateKey"
                    (Thrown AuthenticationError)), alice, 3)) as Hl
    by reflexivity.
  split; [exact Hl|].
  destruct (@failed_load_or_build_keeps_state runtime pgp models
              alice alice 3 3
              (Tagged "pgp.decryptPrivateKey" (Thrown AuthenticationError)))
    as [Hload _].
  destruct (Hload _ _ Hl) as [_ [_ Hready]].
  apply Hready, alice_ready.
Defined.

(** X4.  [load] completes exactly when the armoured private key parses and
    unlocks under the passphrase of the identity and the armoured public
    key parses; it then installs these two handles and stores the two
    texts as they were passed, and draws nothing from the world.  It does
    not compare the two keys. *)
Theorem load_completes_iff `{OpenPGP} `{Models}
  (encryptedPrivateKey publicKey : string) (this this' : OpenE2EE.t)
  (w w' : World) :
  OpenE2EE.load encryptedPrivateKey publicKey this w = (inr tt, this', w') <->
  exists locked sk pk,
    openpgp_readPrivateKey encryptedPrivateKey = inr locked /\
    openpgp_decryptKey locked this.(OpenE2EE.passphrase) = inr sk /\
    openpgp_readKey publicKey = inr pk /\
    this' = OpenE2EE.assign_keys this sk pk encryptedPrivateKey publicKey /\
    w' = w.
Proof.
  split.
  - intros Hl.
    assert (w' = w) as ->.
    { unfold OpenE2EE.load, Promise_all2 in Hl.
      rewrite decryptPrivateKey_run, readPublicKey_run in Hl.
      destruct (tagged "pgp.decryptPrivateKey" _) as [e1|sk];
        destruct (tagged "pgp.readPublicKey" _) as [e2|pk];
        try discriminate. now injection Hl. }
    apply load_inr_steps in Hl as [sk [pk [Hsk [Hpk ->]]]].
    apply decryptPrivateKey_inr_inv in Hsk as [locked [Hlocked Hsk]].
    now exists locked, sk, pk.
  - intros [locked [sk [pk [Hlocked [Hsk [Hpk [-> ->]]]]]]].
    apply load_steps_inr; [|exact Hpk].
    rewrite decryptPrivateKey_run, Hlocked. simpl. now rewrite Hsk.
Qed.

Lemma load_completes_iff_witness :
  OpenE2EE.load "S0:correct horse" "P1"
    (OpenE2EE.constructor "mallory" "correct horse") 2
  = (inr tt, mallory, 2).
Proof.
  apply (proj2 (load_completes_iff "S0:correct horse" "P1"
                  (OpenE2EE.constructor "mallory" "correct horse")
                  mallory 2 2)).
  exists (0, Some "correct horse"), (0, None), 1.
  repeat split.
Defined.

(** ** Shared envelopes *)

Section SharedEnvelopeFacts.
Context `{OpenPGPContract} `{CodecContract}.

(** What [share] by a ready identity returns: an envelope that reads back
    as a key wrapped by the sharer for itself and the receiver, and the
    encrypted data of the input. *)
Lemma ready_share_steps (A : OpenE2EE.t) (receiverPublicKey envelope : string)
  (w w' : World) (out : ShareItemOut.t) :
  ready A ->
  OpenE2EE.share A receiverPublicKey envelope w = (inr out, w') ->
  exists sk pk receiver parts sharedKey newKey,
    A.(OpenE2EE.privateKey) = Some sk /\
    A.(OpenE2EE.publicKey) = Some pk /\
    isDecrypted sk = true /\ toPublic sk = pk /\
    openpgp_readKey receiverPublicKey = inr receiver /\
    readEncryptedMessage envelope = inr parts /\
    PGPService.decryptAsymmetric (Some sk) [Some pk]
      parts.(EncryptedParts.encryptedKey) w = (inr sharedKey, w) /\
    PGPService.encryptAsymmetric (Some sk) [Some pk; Some receiver]
      sharedKey w = (inr newKey, w') /\
    readEncryptedMessage out.(ShareItemOut.receiverEncryptedMessage)
    = inr {| EncryptedParts.encryptedKey := newKey;
             EncryptedParts.encryptedData :=
               parts.(EncryptedParts.encryptedData) |}.
Proof.
  intros [sk [pk [Hsk [Hpk [Hun [Hpair _]]]]]] Hshare.
  apply share_inr_steps in Hshare
    as [parts [receiver [sharedKey [newKey
          [Hparts [Hr [Hopen [Hrewrap ->]]]]]]]].
  rewrite Hsk, Hpk in *. simpl.
  exists sk, pk, receiver, parts, sharedKey, newKey.
  repeat split; try assumption. apply read_write.
Qed.

(** A key wrapped by [share] is refused by a receiver that trusts only
    itself. *)
Lemma shared_key_refused (A B : OpenE2EE.t) (skA skB : PGPPrivateKey)
  (pkA pkB : PGPPublicKey) (sharedKey newKey : string) (w w' w2 : World) :
  isDecrypted skA = true -> toPublic skA = pkA ->
  isDecrypted skB = true -> toPublic skB = pkB ->
  pkA <> pkB ->
  PGPService.encryptAsymmetric (Some skA) [Some pkA; Some pkB]
    sharedKey w = (inr newKey, w') ->
  PGPService.decryptAsymmetric (Some skB) [Some pkB] newKey w2
  = (inl (Tagged "pgp.decryptAsymmetric"
            (Thrown SignatureVerificationError)), w2).
Proof.
  intros HunA HpairA HunB HpairB Hneq Hwrap.
  change [Some pkB] with (map Some [pkB]).
  eapply wrapped_key_refused;
    [exact HunA | exact Hwrap | exact HunB | ..].
  - rewrite HpairB. simpl. auto.
  - rewrite HpairA. simpl. intros [E | []]. now apply Hneq.
Qed.

(** What [share] by a ready identity does with an envelope the identity
    can open: it wraps the session key it read, for itself and the
    receiver, and packs it with the encrypted data of the input. *)
Lemma ready_share_of_opened (A : OpenE2EE.t)
  (receiverPublicKey envelope : string) (opened : MessageItem.t)
  (out : ShareItemOut.t) (w0 w0' w w' : World) :
  ready A ->
  OpenE2EE.decrypt A envelope [] w0 = (inr opened, w0') ->
  OpenE2EE.share A receiverPublicKey envelope w = (inr out, w') ->
  exists sk pk receiver parts newKey,
    A.(OpenE2EE.privateKey) = Some sk /\
    A.(OpenE2EE.publicKey) = Some pk /\
    isDecrypted sk = true /\ toPublic sk = pk /\
    openpgp_readKey receiverPublicKey = inr receiver /\
    readEncryptedMessage envelope = inr parts /\
    (forall w2,
        PGPService.decrypt opened.(MessageItem.key)
          parts.(EncryptedParts.encryptedData) w2
        = (inr opened.(MessageItem.data), w2)) /\
    PGPService.encryptAsymmetric (Some sk) [Some pk; Some receiver]
      opened.(MessageItem.key) w = (inr newKey, w') /\
    readEncryptedMessage out.(ShareItemOut.receiverEncryptedMessage)
    = inr {| EncryptedParts.encryptedKey := newKey;
             EncryptedParts.encryptedData :=
               parts.(EncryptedParts.encryptedData) |}.
Proof.
  intros HA Hopen Hshare.
  destruct (ready_share_steps A _ _ _ _ _ HA Hshare)
    as [sk [pk [receiver [parts [sharedKey [newKey
          [Hsk [Hpk [Hun [Hpair [Hr [Hparts [Hunwrap [Hwrap Hread]]]]]]]]]]]]]].
  apply decrypt_inr_steps in Hopen as [parts' [Hparts' [Hkey [Hdata _]]]].
  rewrite Hparts in Hparts'. injection Hparts' as <-.
  rewrite Hsk, Hpk in Hkey.
  assert (sharedKey = opened.(MessageItem.key)) as ->.
  { rewrite decryptAsymmetric_run in Hunwrap, Hkey.
    injection Hunwrap as Hunwrap. injection Hkey as Hkey.
    rewrite Hunwrap in Hkey. now injection Hkey. }
  exists sk, pk, receiver, parts, newKey.
  repeat split; try assumption.
  intros w2. rewrite decrypt_run in Hdata |- *. now injection Hdata as ->.
Qed.

End SharedEnvelopeFacts.

(** X5.  An envelope that [A] has shared with [B] is refused by the plain
    [decrypt] of [B], which trusts the key of [B] alone: it fails with
    [SignatureVerificationError]; [B] has to name the sender. *)
Theorem plain_decrypt_of_shared_envelope_refused
  `{OpenPGPContract} `{CodecContract}
  (A B : OpenE2EE.t) (envelope : string) (out : ShareItemOut.t)
  (w w' w2 : World) :
  ready A -> ready B ->
  A.(OpenE2EE.publicKey) <> B.(OpenE2EE.publicKey) ->
  OpenE2EE.share A B.(OpenE2EE.publicKeyText) envelope w = (inr out, w') ->
  OpenE2EE.decrypt B out.(ShareItemOut.receiverEncryptedMessage) [] w2
  = (inl (Tagged "pgp.decryptAsymmetric"
            (Thrown SignatureVerificationError)), w2).
Proof.
  intros HA HB Hneq Hshare.
  destruct (ready_share_steps A _ _ _ _ _ HA Hshare)
    as [skA [pkA [receiver [parts [sharedKey [newKey
          [HskA [HpkA [HunA [HpairA [Hr [_ [_ [Hwrap Hread]]]]]]]]]]]]]].
  destruct HB as [skB [pkB [HskB [HpkB [HunB [HpairB HtextB]]]]]].
  rewrite HtextB in Hr. injection Hr as <-.
  unfold OpenE2EE.decrypt.
  erewrite bind_step by (unfold settle; rewrite Hread; reflexivity).
  erewrite bind_step by apply Promise_all_nil.
  apply bind_fail. simpl. rewrite HskB, HpkB.
  eapply (shared_key_refused A B); try eassumption.
  intros E. apply Hneq. rewrite HpkA, HpkB. now f_equal.
Qed.

Lemma plain_decrypt_of_shared_envelope_refused_witness :
  OpenE2EE.share alice "P1" "9:A0:1:0:05Y2:05hello" 8
  = (inr {| ShareItemOut.senderPublicKey := "P0";
            ShareItemOut.receiverEncryptedMessage :=
              "11:A0:2:0:1:05Y2:05hello" |}, 9) /\
  OpenE2EE.decrypt bob "11:A0:2:0:1:05Y2:05hello" [] 9
  = (inl (Tagged "pgp.decryptAsymmetric"
            (Thrown SignatureVerificationError)), 9).
Proof.
  assert (OpenE2EE.share alice bob.(OpenE2EE.publicKeyText)
            "9:A0:1:0:05Y2:05hello" 8
          = (inr {| ShareItemOut.senderPublicKey := "P0";
                    ShareItemOut.receiverEncryptedMessage :=
                      "11:A0:2:0:1:05Y2:05hello" |}, 9)) as Hshare
    by reflexivity.
  split; [exact Hshare|].
  apply (plain_decrypt_of_shared_envelope_refused alice bob
           "9:A0:1:0:05Y2:05hello"
           {| ShareItemOut.senderPublicKey := "P0";
              ShareItemOut.receiverEncryptedMessage :=
                "11:A0:2:0:1:05Y2:05hello" |}
           8 9 9 alice_ready bob_ready).
  - discriminate.
  - exact Hshare.
Defined.

(** X6.  A receiver cannot pass a shared envelope on: [share] unwraps the
    key under the trust of the sharer's own key alone, so [share] by [B]
    of an envelope that [A] shared with [B] fails with
    [SignatureVerificationError], whoever the next receiver is. *)
Theorem receiver_cannot_reshare `{OpenPGPContract} `{CodecContract}
  (A B : OpenE2EE.t) (envelope nextPublicKey : string)
  (next : PGPPublicKey) (out : ShareItemOut.t) (w w' w2 : World) :
  ready A -> ready B ->
  A.(OpenE2EE.publicKey) <> B.(OpenE2EE.publicKey) ->
  OpenE2EE.share A B.(OpenE2EE.publicKeyText) envelope w = (inr out, w') ->
  openpgp_readKey nextPublicKey = inr next ->
  OpenE2EE.share B nextPublicKey
    out.(ShareItemOut.receiverEncryptedMessage) w2
  = (inl (Tagged "pgp.decryptAsymmetric"
            (Thrown SignatureVerificationError)), w2).
Proof.
  intros HA HB Hneq Hshare Hnext.
  destruct (ready_share_steps A _ _ _ _ _ HA Hshare)
    as [skA [pkA [receiver [parts [sharedKey [newKey
          [HskA [HpkA [HunA [HpairA [Hr [_ [_ [Hwrap Hread]]]]]]]]]]]]]].
  destruct HB as [skB [pkB [HskB [HpkB [HunB [HpairB HtextB]]]]]].
  rewrite HtextB in Hr. injection Hr as <-.
  unfold OpenE2EE.share.
  erewrite bind_step by (unfold settle; rewrite Hread; reflexivity).
  erewrite bind_step by (apply readPublicKey_inr; exact Hnext).
  apply bind_fail. simpl. rewrite HskB, HpkB.
  eapply (shared_key_refused A B); try eassumption.
  intros E. apply Hneq. rewrite HpkA, HpkB. now f_equal.
Qed.

Lemma receiver_cannot_reshare_witness :
  OpenE2EE.share bob "P2" "11:A0:2:0:1:05Y2:05hello" 9
  = (inl (Tagged "pgp.decryptAsymmetric"
            (Thrown SignatureVerificationError)), 9).
Proof.
  assert (OpenE2EE.share alice bob.(OpenE2EE.publicKeyText)
            "9:A0:1:0:05Y2:05hello" 8
          = (inr {| ShareItemOut.senderPublicKey := "P0";
                    ShareItemOut.receiverEncryptedMessage :=
                      "11:A0:2:0:1:05Y2:05hello" |}, 9)) as Hshare
    by reflexivity.
  apply (receiver_cannot_reshare alice bob "9:A0:1:0:05Y2:05hello" "P2" 2
           {| ShareItemOut.senderPublicKey := "P0";
              ShareItemOut.receiverEncryptedMessage :=
                "11:A0:2:0:1:05Y2:05hello" |}
           8 9 9 alice_ready bob_ready).
  - discriminate.
  - exact Hshare.
  - reflexivity.
Defined.

(** X7.  The sharer stays a recipient: the envelope [share] returns opens
    under the sharer's own [decrypt].  The wrapped key opens to the text
    literal of the session key the sharer read in the input envelope, and
    the data is decrypted with it; when that text literal is the session
    key itself, as it is for the keys [encrypt] generates, [decrypt]
    returns the session key and the data the sharer read in the input
    envelope. *)
Theorem sharer_opens_shared_envelope `{OpenPGPContract} `{CodecContract}
  (A : OpenE2EE.t) (receiverPublicKey envelope : string)
  (opened : MessageItem.t) (out : ShareItemOut.t) (w0 w0' w w' w2 : World) :
  ready A ->
  OpenE2EE.decrypt A envelope [] w0 = (inr opened, w0') ->
  OpenE2EE.share A receiverPublicKey envelope w = (inr out, w') ->
  exists parts,
    readEncryptedMessage envelope = inr parts /\
    OpenE2EE.decrypt A out.(ShareItemOut.receiverEncryptedMessage) [] w2
    = (data <- PGPService.decrypt (literalText opened.(MessageItem.key))
                 parts.(EncryptedParts.encryptedData) ;;
       resolve {| MessageItem.key := literalText opened.(MessageItem.key);
                  MessageItem.data := data |}) w2 /\
    (literalText opened.(MessageItem.key) = opened.(MessageItem.key) ->
     OpenE2EE.decrypt A out.(ShareItemOut.receiverEncryptedMessage) [] w2
     = (inr opened, w2)).
Proof.
  intros HA Hopen Hshare.
  destruct (ready_share_of_opened A _ _ _ _ _ _ _ _ HA Hopen Hshare)
    as [sk [pk [receiver [parts [newKey
          [Hsk [Hpk [Hun [Hpair [Hr [Hparts [Hdata [Hwrap Hread]]]]]]]]]]]]].
  exists parts. split; [exact Hparts|].
  assert (OpenE2EE.decrypt A out.(ShareItemOut.receiverEncryptedMessage)
            [] w2
          = (data <- PGPService.decrypt
                       (literalText opened.(MessageItem.key))
                       parts.(EncryptedParts.encryptedData) ;;
             resolve {| MessageItem.key :=
                          literalText opened.(MessageItem.key);
                        MessageItem.data := data |}) w2) as Hrun.
  { unfold OpenE2EE.decrypt.
    erewrite bind_step by (unfold settle; rewrite Hread; reflexivity).
    erewrite bind_step by apply Promise_all_nil.
    erewrite bind_step; [reflexivity|].
    simpl. rewrite Hsk, Hpk. change [Some pk] with (map Some [pk]).
    eapply wrapped_key_opens;
      [exact Hun | exact Hwrap | exact Hun | ..];
      rewrite Hpair; simpl; auto. }
  split; [exact Hrun|]. intros Hkey.
  rewrite Hrun, Hkey. erewrite bind_step by apply Hdata.
  now destruct opened.
Qed.

Lemma sharer_opens_shared_envelope_witness :
  OpenE2EE.decrypt alice "11:A0:2:0:1:05Y2:05hello" [] 9
  = (inr {| MessageItem.key := "05"; MessageItem.data := "hello" |}, 9).
Proof.
  destruct (sharer_opens_shared_envelope alice "P1" "9:A0:1:0:05Y2:05hello"
              {| MessageItem.key := "05"; MessageItem.data := "hello" |}
              {| ShareItemOut.senderPublicKey := "P0";
                 ShareItemOut.receiverEncryptedMessage :=
                   "11:A0:2:0:1:05Y2:05hello" |} 8 8 8 9 9 alice_ready)
    as [parts [_ [_ Hopen]]]; [reflexivity | reflexivity |].
  apply Hopen. reflexivity.
Defined.

(** X8.  [share] and [receive] work on every envelope the sharer can
    open, not only on one fresh from [encrypt]: when ready [A] opens an
    envelope and shares it with ready [C], the wrapped key opens for [C],
    under [receive] with the public key of [A], to the text literal of
    the session key that [A] read, and [C] decrypts the data with it.
    When that text literal is the session key itself, as it is for the
    keys [encrypt] generates, [receive] returns the session key and the
    data that [A] read.  So [A] can share one envelope with one receiver
    after another, also starting from an envelope that [share]
    returned. *)
Theorem share_receive_any_envelope `{OpenPGPContract} `{CodecContract}
  (A C : OpenE2EE.t) (envelope : string) (opened : MessageItem.t)
  (out : ShareItemOut.t) (w0 w0' w w' w2 : World) :
  ready A -> ready C ->
  OpenE2EE.decrypt A envelope [] w0 = (inr opened, w0') ->
  OpenE2EE.share A C.(OpenE2EE.publicKeyText) envelope w = (inr out, w') ->
  exists parts,
    readEncryptedMessage envelope = inr parts /\
    OpenE2EE.receive C A.(OpenE2EE.publicKeyText)
      out.(ShareItemOut.receiverEncryptedMessage) w2
    = (data <- PGPService.decrypt (literalText opened.(MessageItem.key))
                 parts.(EncryptedParts.encryptedData) ;;
       resolve {| MessageItem.key := literalText opened.(MessageItem.key);
                  MessageItem.data := data |}) w2 /\
    (literalText opened.(MessageItem.key) = opened.(MessageItem.key) ->
     OpenE2EE.receive C A.(OpenE2EE.publicKeyText)
       out.(ShareItemOut.receiverEncryptedMessage) w2
     = (inr opened, w2)).
Proof.
  intros HA HC Hopen Hshare.
  destruct (ready_share_of_opened A _ _ _ _ _ _ _ _ HA Hopen Hshare)
    as [sk [pk [receiver [parts [newKey
          [Hsk [Hpk [Hun [Hpair [Hr [Hparts [Hdata [Hwrap Hread]]]]]]]]]]]]].
  destruct HA as [sk' [pk' [Hsk' [Hpk' [_ [_ HtextA]]]]]].
  rewrite Hsk in Hsk'. injection Hsk' as <-.
  rewrite Hpk in Hpk'. injection Hpk' as <-.
  destruct HC as [skC [pkC [HskC [HpkC [HunC [HpairC HtextC]]]]]].
  rewrite HtextC in Hr. injection Hr as <-.
  exists parts. split; [exact Hparts|].
  assert (OpenE2EE.receive C A.(OpenE2EE.publicKeyText)
            out.(ShareItemOut.receiverEncryptedMessage) w2
          = (data <- PGPService.decrypt
                       (literalText opened.(MessageItem.key))
                       parts.(EncryptedParts.encryptedData) ;;
             resolve {| MessageItem.key :=
                          literalText opened.(MessageItem.key);
                        MessageItem.data := data |}) w2) as Hrun.
  { unfold OpenE2EE.receive, OpenE2EE.decrypt.
    erewrite bind_step by (unfold settle; rewrite Hread; reflexivity).
    erewrite bind_step
      by (apply Promise_all_one, readPublicKey_inr; exact HtextA).
    erewrite bind_step; [reflexivity|].
    simpl. rewrite HskC, HpkC.
    change [Some pkC; Some pk] with (map Some [pkC; pk]).
    eapply wrapped_key_opens;
      [exact Hun | exact Hwrap | exact HunC | ..].
    - rewrite HpairC. simpl. auto.
    - rewrite Hpair. simpl. auto. }
  split; [exact Hrun|]. intros Hkey.
  rewrite Hrun, Hkey. erewrite bind_step by apply Hdata.
  now destruct opened.
Qed.

Lemma erin_ready : ready erin.
Proof. exists (2, None), 2. repeat split. Qed.

(** [alice] shares with [erin] the envelope she has shared with [bob]. *)
Lemma share_receive_any_envelope_witness :
  OpenE2EE.share alice "P2" "11:A0:2:0:1:05Y2:05hello" 9
  = (inr {| ShareItemOut.senderPublicKey := "P0";
            ShareItemOut.receiverEncryptedMessage :=
              "11:A0:2:0:2:05Y2:05hello" |}, 10) /\
  OpenE2EE.receive erin "P0" "11:A0:2:0:2:05Y2:05hello" 10
  = (inr {| MessageItem.key := "05"; MessageItem.data := "hello" |}, 10).
Proof.
  split; [reflexivity|].
  destruct (share_receive_any_envelope alice erin
              "11:A0:2:0:1:05Y2:05hello"
              {| MessageItem.key := "05"; MessageItem.data := "hello" |}
              {| ShareItemOut.senderPublicKey := "P0";
                 ShareItemOut.receiverEncryptedMessage :=
                   "11:A0:2:0:2:05Y2:05hello" |}
              9 9 9 10 10 alice_ready erin_ready)
    as [parts [_ [_ Hopen]]]; [reflexivity | reflexivity |].
  apply Hopen. reflexivity.
Defined.

(** An envelope made outside the class, whose session key is a carriage
    return and a line feed: [alice] opens it and shares it with [bob]; the
    key she wraps is read back as the line feed alone, so neither [bob]
    nor [alice] opens the data of the shared envelope. *)
Example foreign_session_key_is_not_passed_on :
  OpenE2EE.decrypt alice foreign_envelope [] 5
  = (inr {| MessageItem.key := dos_line_end;
            MessageItem.data := "hello" |}, 5) /\
  OpenE2EE.share alice "P1" foreign_envelope 5
  = (inr {| ShareItemOut.senderPublicKey := "P0";
            ShareItemOut.receiverEncryptedMessage :=
              "10:A0:2:0:1:" ++ unix_line_end
              ++ "Y2:" ++ dos_line_end ++ "hello" |}, 6) /\
  OpenE2EE.receive bob "P0"
    ("10:A0:2:0:1:" ++ unix_line_end ++ "Y2:" ++ dos_line_end ++ "hello") 6
  = (inl (Tagged "pgp.decrypt" (Thrown DecryptionError)), 6) /\
  OpenE2EE.decrypt alice
    ("10:A0:2:0:1:" ++ unix_line_end ++ "Y2:" ++ dos_line_end ++ "hello")
    [] 6
  = (inl (Tagged "pgp.decrypt" (Thrown DecryptionError)), 6).
Proof. repeat split. Qed.

(** ** External verification keys *)

Section ExternalKeyFacts.
Context `{OpenPGP} `{Models}.

Lemma start_all_readPublicKey (external : list string) (w : World) :
  start_all (map PGPService.readPublicKey external) w
  = (map (fun a => tagged "pgp.readPublicKey" (openpgp_readKey a)) external,
     w).
Proof.
  induction external as [|a external IH]; simpl.
  - reflexivity.
  - now rewrite readPublicKey_run, IH.
Qed.

(** When every external key parses, [Promise.all] gives the handles, in
    the order of the texts. *)
Lemma readPublicKeys_inr (external : list string)
  (keys : list PGPPublicKey) (w : World) :
  Forall2 (fun a k => openpgp_readKey a = inr k) external keys ->
  Promise_all (map PGPService.readPublicKey external) w = (inr keys, w).
Proof.
  intros Hall. unfold Promise_all. rewrite start_all_readPublicKey.
  induction Hall as [|a k external keys Hk _ IH]; simpl.
  - reflexivity.
  - rewrite Hk. simpl.
    destruct (rejections _) as [|e es]; [|discriminate].
    injection IH as ->. reflexivity.
Qed.

(** When one external key does not parse, [Promise.all] rejects, under
    the name of [pgp.readPublicKey]. *)
Lemma readPublicKeys_malformed (external : list string) (a : string)
  (cause : Failure) (w : World) :
  In a external -> openpgp_readKey a = inl cause ->
  exists e,
    Promise_all (map PGPService.readPublicKey external) w = (inl e, w) /\
    tag_of e = Some "pgp.readPublicKey".
Proof.
  intros Hin Ha.
  assert (exists e, Promise_all (map PGPService.readPublicKey external) w
                    = (inl e, w)) as [e He].
  { unfold Promise_all. rewrite start_all_readPublicKey.
    assert (rejections
              (map (fun a => tagged "pgp.readPublicKey" (openpgp_readKey a))
                 external) <> []) as Hne.
    { clear w. induction external as [|b external IH]; [contradiction|].
      simpl. destruct Hin as [-> | Hin].
      - rewrite Ha. simpl. discriminate.
      - destruct (openpgp_readKey b); simpl; [discriminate | now apply IH]. }
    destruct (rejections _) as [|e0 es]; [contradiction|]. eauto. }
  exists e. split; [exact He|].
  apply readPublicKeys_inl in He as [c ->]. reflexivity.
Qed.

End ExternalKeyFacts.

(** X9.  The trust set of [decrypt] is the identity's own public key
    together with all the external keys, however many: for a ready
    identity, external keys that all parse, and an envelope whose wrapped
    key was made for the identity and signed by some key, the signature is
    accepted when the signer is the identity itself or one of the external
    keys, and [decrypt] goes on to the data, with the text literal of the
    text that was wrapped as the key; otherwise [decrypt] fails with
    [SignatureVerificationError]. *)
Theorem decrypt_trust_set `{OpenPGPContract} `{Models}
  (this : OpenE2EE.t) (envelope : string) (external : list string)
  (keys : list PGPPublicKey) (parts : EncryptedParts.t)
  (signer : PGPPrivateKey) (recipients : list (option PGPPublicKey))
  (text : string) (w w' w2 : World) :
  ready this ->
  Forall2 (fun a k => openpgp_readKey a = inr k) external keys ->
  readEncryptedMessage envelope = inr parts ->
  isDecrypted signer = true ->
  PGPService.encryptAsymmetric (Some signer) recipients text w
    = (inr parts.(EncryptedParts.encryptedKey), w') ->
  In this.(OpenE2EE.publicKey) recipients ->
  (this.(OpenE2EE.publicKey) = Some (toPublic signer) \/
   In (toPublic signer) keys ->
   OpenE2EE.decrypt this envelope external w2
   = (data <- PGPService.decrypt (literalText text)
                parts.(EncryptedParts.encryptedData) ;;
      resolve {| MessageItem.key := literalText text;
                 MessageItem.data := data |}) w2) /\
  (this.(OpenE2EE.publicKey) <> Some (toPublic signer) ->
   ~ In (toPublic signer) keys ->
   OpenE2EE.decrypt this envelope external w2
   = (inl (Tagged "pgp.decryptAsymmetric"
             (Thrown SignatureVerificationError)), w2)).
Proof.
  intros [sk [pk [Hsk [Hpk [Hun [Hpair _]]]]]] Hkeys Hparts Hsig Hwrap Hin.
  assert (OpenE2EE.decrypt this envelope external w2
          = (key <-
               PGPService.decryptAsymmetric (Some sk)
                 (map Some (pk :: keys))
                 parts.(EncryptedParts.encryptedKey) ;;
             data <-
               PGPService.decrypt key parts.(EncryptedParts.encryptedData) ;;
             resolve {| MessageItem.key := key; MessageItem.data := data |})
              w2) as Hrun.
  { unfold OpenE2EE.decrypt.
    erewrite bind_step by (unfold settle; rewrite Hparts; reflexivity).
    erewrite bind_step by (apply readPublicKeys_inr; exact Hkeys).
    rewrite Hsk, Hpk. reflexivity. }
  rewrite Hpk in Hin. rewrite <- Hpair in Hin.
  rewrite Hrun, Hpk. split.
  - intros Hor. erewrite bind_step; [reflexivity|].
    eapply wrapped_key_opens; try eassumption.
    simpl. destruct Hor as [E | E].
    + left. now injection E.
    + now right.
  - intros Hown Hother. apply bind_fail.
    eapply wrapped_key_refused; try eassumption.
    simpl. intros [E | E].
    + apply Hown. now rewrite E.
    + now apply Hother.
Qed.

(** [erin] opens what [alice] shared with her when [alice] is among two
    external keys, and not when she is left out. *)
Lemma decrypt_trust_set_witness :
  OpenE2EE.decrypt erin "11:A0:2:0:2:05Y2:05hello" ["P1"; "P0"] 10
  = (inr {| MessageItem.key := "05"; MessageItem.data := "hello" |}, 10) /\
  OpenE2EE.decrypt erin "11:A0:2:0:2:05Y2:05hello" ["P1"] 10
  = (inl (Tagged "pgp.decryptAsymmetric"
            (Thrown SignatureVerificationError)), 10).
Proof.
  split.
  - refine (eq_trans
      (proj1 (decrypt_trust_set erin "11:A0:2:0:2:05Y2:05hello"
                ["P1"; "P0"] [1; 0]
                {| EncryptedParts.encryptedKey := "A0:2:0:2:05";
                   EncryptedParts.encryptedData := "Y2:05hello" |}
                (0, None) [Some 0; Some 2] "05" 9 10 10
                erin_ready _ _ _ _ _) _) _).
    + repeat constructor.
    + reflexivity.
    + reflexivity.
    + reflexivity.
    + simpl. auto.
    + right. simpl. auto.
    + reflexivity.
  - refine (proj2 (decrypt_trust_set erin "11:A0:2:0:2:05Y2:05hello"
                     ["P1"] [1]
                     {| EncryptedParts.encryptedKey := "A0:2:0:2:05";
                        EncryptedParts.encryptedData := "Y2:05hello" |}
                     (0, None) [Some 0; Some 2] "05" 9 10 10
                     erin_ready _ _ _ _ _) _ _).
    + repeat constructor.
    + reflexivity.
    + reflexivity.
    + reflexivity.
    + simpl. auto.
    + discriminate.
    + simpl. intros [E | []]. discriminate.
Defined.

(** X10.  One malformed external key is enough for [decrypt] to fail,
    under the name of [pgp.readPublicKey]: whatever the identity and
    whatever the wrapped key of a well-formed envelope, the keys are all
    parsed before the envelope is opened. *)
Theorem decrypt_malformed_external_key `{OpenPGP} `{Models}
  (this : OpenE2EE.t) (envelope : string) (parts : EncryptedParts.t)
  (external : list string) (a : string) (cause : Failure) (w : World) :
  readEncryptedMessage envelope = inr parts ->
  In a external ->
  openpgp_readKey a = inl cause ->
  exists e,
    OpenE2EE.decrypt this envelope external w = (inl e, w) /\
    tag_of e = Some "pgp.readPublicKey".
Proof.
  intros Hparts Hin Ha.
  destruct (readPublicKeys_malformed external a cause w Hin Ha)
    as [e [He Htag]].
  exists e. split; [|exact Htag].
  unfold OpenE2EE.decrypt.
  erewrite bind_step by (unfold settle; rewrite Hparts; reflexivity).
  now apply bind_fail.
Qed.

Lemma decrypt_malformed_external_key_witness :
  exists e,
    OpenE2EE.decrypt alice "9:A0:1:0:05Y2:05hello" ["P1"; "oops"] 10
    = (inl e, 10) /\
    tag_of e = Some "pgp.readPublicKey".
Proof.
  apply (decrypt_malformed_external_key alice "9:A0:1:0:05Y2:05hello"
           {| EncryptedParts.encryptedKey := "A0:1:0:05";
              EncryptedParts.encryptedData := "Y2:05hello" |}
           ["P1"; "oops"] "oops" (Thrown KeyParseError) 10).
  - reflexivity.
  - simpl. auto.
  - reflexivity.
Defined.

(** ** The order of the checks *)

(** X11.  A string that the codec does not read as an envelope makes
    [decrypt], [share] and [receive] fail with the failure of the codec,
    before any key is parsed or used: whatever the state of the identity
    and the other arguments, and with nothing drawn from the world. *)
Theorem malformed_envelope_fails_first `{OpenPGP} `{Models}
  (this : OpenE2EE.t) (envelope : string) (e : Failure) :
  readEncryptedMessage envelope = inl e ->
  (forall external w,
      OpenE2EE.decrypt this envelope external w = (inl e, w)) /\
  (forall receiverPublicKey w,
      OpenE2EE.share this receiverPublicKey envelope w = (inl e, w)) /\
  (forall senderPublicKey w,
      OpenE2EE.receive this senderPublicKey envelope w = (inl e, w)).
Proof.
  intros Hread. repeat split; intros;
    unfold OpenE2EE.receive, OpenE2EE.decrypt, OpenE2EE.share;
    apply bind_fail; unfold settle; now rewrite Hread.
Qed.

Lemma malformed_envelope_fails_first_witness :
  OpenE2EE.share alice "P1" "hello" 5 = (inl (Thrown EnvelopeFormatError), 5).
Proof.
  apply (proj1 (proj2
    (@malformed_envelope_fails_first runtime pgp models
       alice "hello" (Thrown EnvelopeFormatError) eq_refl))).
Defined.

(** X12.  A receiver key that does not parse stops [shareNew] before
    anything is encrypted (no session key is generated, nothing is drawn
    from the world) and stops [share] of a well-formed envelope before the
    wrapped key is opened; both fail with the parse failure under the name
    of [pgp.readPublicKey], whatever the state of the identity. *)
Theorem malformed_receiver_key_fails_first `{OpenPGP} `{Models}
  (this : OpenE2EE.t) (receiverPublicKey : string) (cause : Failure) :
  openpgp_readKey receiverPublicKey = inl cause ->
  (forall data w,
      OpenE2EE.shareNew this receiverPublicKey data w
      = (inl (Tagged "pgp.readPublicKey" cause), w)) /\
  (forall envelope parts w,
      readEncryptedMessage envelope = inr parts ->
      OpenE2EE.share this receiverPublicKey envelope w
      = (inl (Tagged "pgp.readPublicKey" cause), w)).
Proof.
  intros Hr. split.
  - intros data w. unfold OpenE2EE.shareNew. apply bind_fail.
    now rewrite readPublicKey_run, Hr.
  - intros envelope parts w Hparts. unfold OpenE2EE.share.
    erewrite bind_step by (unfold settle; rewrite Hparts; reflexivity).
    apply bind_fail. now rewrite readPublicKey_run, Hr.
Qed.

Lemma malformed_receiver_key_fails_first_witness :
  OpenE2EE.shareNew alice "oops" "hello" 5
  = (inl (Tagged "pgp.readPublicKey" (Thrown KeyParseError)), 5).
Proof.
  apply (proj1
    (@malformed_receiver_key_fails_first runtime pgp models
       alice "oops" (Thrown KeyParseError) eq_refl)).
Defined.

(** X13.  [shareNew] wraps the session key for the receiver alone, so,
    unlike the envelope [share] returns, the receiver's envelope is closed
    to the sender: when the receiver is another key, [decrypt] by the
    sender fails on it with [DecryptionError], and so does a later [share]
    of it by the sender. *)
Theorem shareNew_receiver_envelope_closed_to_sender
  `{OpenPGPRecipients} `{CodecContract}
  (A : OpenE2EE.t) (receiverPublicKey data : string)
  (receiver : PGPPublicKey) (out : ShareNewItemOut.t) (w w' w2 : World) :
  ready A ->
  openpgp_readKey receiverPublicKey = inr receiver ->
  A.(OpenE2EE.publicKey) <> Some receiver ->
  OpenE2EE.shareNew A receiverPublicKey data w = (inr out, w') ->
  OpenE2EE.decrypt A out.(ShareNewItemOut.receiverEncryptedMessage) [] w2
  = (inl (Tagged "pgp.decryptAsymmetric" (Thrown DecryptionError)), w2) /\
  (forall nextPublicKey next,
      openpgp_readKey nextPublicKey = inr next ->
      OpenE2EE.share A nextPublicKey
        out.(ShareNewItemOut.receiverEncryptedMessage) w2
      = (inl (Tagged "pgp.decryptAsymmetric" (Thrown DecryptionError)),
         w2)).
Proof.
  intros [sk [pk [Hsk [Hpk [Hun [Hpair _]]]]]] Hr Hneq Hnew.
  apply shareNew_inr_steps in Hnew
    as [receiver' [item [w1 [newKey [parts
          [Hr' [_ [Hwrap [_ ->]]]]]]]]].
  rewrite Hr in Hr'. injection Hr' as <-.
  rewrite Hsk in Hwrap. simpl.
  assert (forall trusted,
             PGPService.decryptAsymmetric (Some sk) trusted newKey w2
             = (inl (Tagged "pgp.decryptAsymmetric"
                       (Thrown DecryptionError)), w2)) as Hclosed.
  { intros trusted.
    change [Some receiver] with (map Some [receiver]) in Hwrap.
    eapply wrapped_key_closed; [exact Hun | exact Hwrap |].
    simpl. intros [E | []]. apply Hneq. rewrite Hpk, <- Hpair. now f_equal. }
  split.
  - unfold OpenE2EE.decrypt.
    erewrite bind_step by (unfold settle; rewrite read_write; reflexivity).
    erewrite bind_step by apply Promise_all_nil.
    apply bind_fail. simpl. rewrite Hsk. apply Hclosed.
  - intros nextPublicKey next Hnext. unfold OpenE2EE.share.
    erewrite bind_step by (unfold settle; rewrite read_write; reflexivity).
    erewrite bind_step by (apply readPublicKey_inr; exact Hnext).
    apply bind_fail. simpl. rewrite Hsk. apply Hclosed.
Qed.

Lemma shareNew_receiver_envelope_closed_to_sender_witness :
  OpenE2EE.shareNew alice "P1" "hello" 5
  = (inr {| ShareNewItemOut.senderPublicKey := "P0";
            ShareNewItemOut.senderEncryptedMessage :=
              "9:A0:1:0:05Y2:05hello";
            ShareNewItemOut.receiverEncryptedMessage :=
              "9:A0:1:1:05Y2:05hello" |}, 9) /\
  OpenE2EE.decrypt alice "9:A0:1:1:05Y2:05hello" [] 9
  = (inl (Tagged "pgp.decryptAsymmetric" (Thrown DecryptionError)), 9).
Proof.
  assert (OpenE2EE.shareNew alice "P1" "hello" 5
          = (inr {| ShareNewItemOut.senderPublicKey := "P0";
                    ShareNewItemOut.senderEncryptedMessage :=
                      "9:A0:1:0:05Y2:05hello";
                    ShareNewItemOut.receiverEncryptedMessage :=
                      "9:A0:1:1:05Y2:05hello" |}, 9)) as Hnew
    by reflexivity.
  split; [exact Hnew|].
  refine (proj1 (shareNew_receiver_envelope_closed_to_sender alice "P1"
                   "hello" 1
                   {| ShareNewItemOut.senderPublicKey := "P0";
                      ShareNewItemOut.senderEncryptedMessage :=
                        "9:A0:1:0:05Y2:05hello";
                      ShareNewItemOut.receiverEncryptedMessage :=
                        "9:A0:1:1:05Y2:05hello" |}
                   5 9 9 alice_ready _ _ Hnew)).
  - reflexivity.
  - discriminate.
Defined.

(** X14.  An envelope is closed to everyone but its recipients: what [A]
    has encrypted, and what [A] has shared with [B], a third ready
    identity [C] with a key of its own cannot open, whichever keys it
    names as trusted; [receive] by [C] fails with [DecryptionError]. *)
Theorem envelope_closed_to_third_party
  `{OpenPGPRecipients} `{CodecContract}
  (A B C : OpenE2EE.t) (data envelope senderPublicKey : string)
  (sender : PGPPublicKey) (item : MessageItemEncrypted.t)
  (out : ShareItemOut.t) (w w1 w2 w3 w4 : World) :
  ready A -> ready B -> ready C ->
  C.(OpenE2EE.publicKey) <> A.(OpenE2EE.publicKey) ->
  C.(OpenE2EE.publicKey) <> B.(OpenE2EE.publicKey) ->
  openpgp_readKey senderPublicKey = inr sender ->
  (OpenE2EE.encrypt A data w = (inr item, w1) ->
   OpenE2EE.receive C senderPublicKey
     item.(MessageItemEncrypted.encryptedMessage) w4
   = (inl (Tagged "pgp.decryptAsymmetric" (Thrown DecryptionError)), w4)) /\
  (OpenE2EE.share A B.(OpenE2EE.publicKeyText) envelope w2 = (inr out, w3) ->
   OpenE2EE.receive C senderPublicKey
     out.(ShareItemOut.receiverEncryptedMessage) w4
   = (inl (Tagged "pgp.decryptAsymmetric" (Thrown DecryptionError)), w4)).
Proof.
  intros [skA [pkA [HskA [HpkA [HunA [HpairA _]]]]]]
         [skB [pkB [HskB [HpkB [HunB [HpairB HtextB]]]]]]
         [skC [pkC [HskC [HpkC [HunC [HpairC _]]]]]] HneqA HneqB Hs.
  rewrite HpkC, HpkA in HneqA. rewrite HpkC, HpkB in HneqB.
  assert (forall envelope' wrapped ed recipients text v v',
             readEncryptedMessage envelope'
             = inr {| EncryptedParts.encryptedKey := wrapped;
                      EncryptedParts.encryptedData := ed |} ->
             PGPService.encryptAsymmetric (Some skA) (map Some recipients)
               text v = (inr wrapped, v') ->
             ~ In pkC recipients ->
             OpenE2EE.receive C senderPublicKey envelope' w4
             = (inl (Tagged "pgp.decryptAsymmetric"
                       (Thrown DecryptionError)), w4)) as Hclosed.
  { intros envelope' wrapped ed recipients text v v' Hread Hwrap Hnot.
    unfold OpenE2EE.receive, OpenE2EE.decrypt.
    erewrite bind_step by (unfold settle; rewrite Hread; reflexivity).
    erewrite bind_step
      by (apply Promise_all_one, readPublicKey_inr; exact Hs).
    apply bind_fail. simpl. rewrite HskC.
    eapply wrapped_key_closed; [exact HunA | exact Hwrap |].
    now rewrite HpairC. }
  split.
  - intros Henc. apply encrypt_inr_steps in Henc
      as [key [ek [ed [v1 [v2 [_ [Hwrap [_ ->]]]]]]]].
    rewrite HskA, HpkA in Hwrap. simpl.
    eapply (Hclosed _ ek ed [pkA]); [apply read_write | exact Hwrap |].
    simpl. intros [E | []]. apply HneqA. now f_equal.
  - intros Hshare. apply share_inr_steps in Hshare
      as [parts [receiver [sharedKey [newKey
            [_ [Hr [_ [Hwrap ->]]]]]]]].
    rewrite HtextB in Hr. injection Hr as <-.
    rewrite HskA, HpkA in Hwrap. simpl.
    eapply (Hclosed _ newKey _ [pkA; pkB]); [apply read_write | exact Hwrap |].
    simpl. intros [E | [E | []]].
    + apply HneqA. now f_equal.
    + apply HneqB. now f_equal.
Qed.

Lemma envelope_closed_to_third_party_witness :
  OpenE2EE.receive erin "P0" "11:A0:2:0:1:05Y2:05hello" 9
  = (inl (Tagged "pgp.decryptAsymmetric" (Thrown DecryptionError)), 9).
Proof.
  refine (proj2 (envelope_closed_to_third_party alice bob erin
                   "hello" "9:A0:1:0:05Y2:05hello" "P0" 0
                   {| MessageItemEncrypted.key := "05";
                      MessageItemEncrypted.encryptedMessage :=
                        "9:A0:1:0:05Y2:05hello" |}
                   {| ShareItemOut.senderPublicKey := "P0";
                      ShareItemOut.receiverEncryptedMessage :=
                        "11:A0:2:0:1:05Y2:05hello" |}
                   5 8 8 9 9 alice_ready bob_ready erin_ready _ _ _) _).
  - discriminate.
  - discriminate.
  - reflexivity.
  - reflexivity.
Defined.
